(** * fix_migrations.py: the migration fixer, embedded and verified

    The script rewrites SQL migration files so that their CREATE INDEX,
    CREATE POLICY and CREATE TRIGGER statements can be run twice.  This file
    embeds its functions (the three fixers and the file driver) and the part
    of Python's [re] and [str] they rely on, and proves or refutes the
    properties that the specification states about them.

    Python strings are sequences of Unicode code points: a [str] is a list
    of code points, a code point is an [N]. *)

From Stdlib Require Import String Ascii DecimalString.
From Stdlib Require Import List NArith Arith Bool Lia.
From Equations Require Import Equations.
Import ListNotations.

Set Equations Transparent.

(* ===================================================================== *)
(** * Python strings                                                      *)
(* ===================================================================== *)

Definition char := N.
Definition str := list char.

(** A string literal of the source, as the list of its code points (the
    literals of the script that are written this way are ASCII). *)
Definition lit (s : string) : str := map N_of_ascii (list_ascii_of_string s).

Definition nl : char := 10%N.      (* the newline character *)
Definition dquote : char := 34%N.  (* the double quote      *)

Definition char_eqb (a b : char) : bool := N.eqb a b.

(** [s.startswith(p)], returning what follows the prefix. *)
Fixpoint strip_prefix (p s : str) : option str :=
  match p with
  | [] => Some s
  | a :: p' =>
      match s with
      | [] => None
      | b :: s' => if char_eqb a b then strip_prefix p' s' else None
      end
  end.

Definition starts_with (p s : str) : bool :=
  match strip_prefix p s with Some _ => true | None => false end.

(** [needle in hay] on strings: substring test. *)
Fixpoint contains (needle hay : str) : bool :=
  starts_with needle hay ||
  match hay with
  | [] => false
  | _ :: hay' => contains needle hay'
  end.

(** [s.split(sep)] for a one-character separator: never empty, [''] for
    the empty string. *)
Fixpoint split (sep : char) (s : str) : list str :=
  match s with
  | [] => [[]]
  | c :: s' =>
      if char_eqb c sep then [] :: split sep s'
      else match split sep s' with
           | l :: ls => (c :: l) :: ls
           | [] => [[c]]
           end
  end.

(** [sep.join(parts)]. *)
Fixpoint join (sep : char) (parts : list str) : str :=
  match parts with
  | [] => []
  | [l] => l
  | l :: ls => l ++ sep :: join sep ls
  end.

(** [str(n)] for a non-negative integer. *)
Definition str_of_nat (n : nat) : str := lit (NilZero.string_of_uint (Nat.to_uint n)).

(* ===================================================================== *)
(** * The fragment of [re] that the script uses                            *)
(* ===================================================================== *)

(** The six patterns of the script are built from literal text, greedy
    repetition of a character class, one capturing group, a negative
    lookahead and the start anchor. *)
Inductive regex : Type :=
| Chars (text : str)             (* literal characters             *)
| Plus (cls : char -> bool)      (* [cls]+ , greedy                *)
| Star (cls : char -> bool)      (* [cls]* , greedy                *)
| Group (r : regex)              (* ( r ) , group 1                *)
| NotAhead (r : regex)           (* (?! r )                        *)
| Bol                            (* ^ , without re.MULTILINE       *)
| Seq (r1 r2 : regex).           (* r1 r2                          *)

Declare Scope regex_scope.
Delimit Scope regex_scope with re.
Bind Scope regex_scope with regex.
Infix ">>" := Seq (at level 61, right associativity) : regex_scope.

(** Greedy repetition with backtracking: take as many characters of the
    class as there are, hand over to the rest of the pattern [k], and give
    the characters back one at a time while [k] fails. *)
Fixpoint greedy {A : Type} (cls : char -> bool) (pos : nat) (s : str)
    (k : nat -> str -> option A) : option A :=
  match s with
  | c :: s' =>
      if cls c then
        match greedy cls (S pos) s' k with
        | Some a => Some a
        | None => k pos s
        end
      else k pos s
  | [] => k pos s
  end.

(** The backtracking matcher.  [pos] is the index in the subject string,
    [s] the subject from [pos] on, [g] the text of group 1 so far, [k] what
    remains to be matched. *)
Fixpoint exec (r : regex) {A : Type} (pos : nat) (s : str) (g : option str)
    (k : nat -> str -> option str -> option A) {struct r} : option A :=
  match r with
  | Chars text =>
      match strip_prefix text s with
      | Some s' => k (pos + length text) s' g
      | None => None
      end
  | Plus cls =>
      match s with
      | c :: s' =>
          if cls c then greedy cls (S pos) s' (fun p t => k p t g) else None
      | [] => None
      end
  | Star cls => greedy cls pos s (fun p t => k p t g)
  | Group r1 =>
      exec r1 pos s g (fun p t _ => k p t (Some (firstn (p - pos) s)))
  | NotAhead r1 =>
      match exec r1 pos s g (fun _ _ _ => Some tt) with
      | Some _ => None
      | None => k pos s g
      end
  | Bol => if Nat.eqb pos 0 then k pos s g else None
  | Seq r1 r2 => exec r1 pos s g (fun p t g' => exec r2 p t g' k)
  end.

(** A match object: [m.start()], [m.end()], [m.group(1)]. *)
Record re_match_obj : Type := MatchObj {
  m_start : nat;
  m_end : nat;
  m_group1 : option str
}.

(** The pattern tried at index [pos], where [s] is the subject from [pos]. *)
Definition match_at (r : regex) (pos : nat) (s : str) : option re_match_obj :=
  exec r pos s None (fun e _ g => Some (MatchObj pos e g)).

(** [re.match(r, s)]. *)
Definition re_match (r : regex) (s : str) : option re_match_obj := match_at r 0 s.

(** The leftmost match at or after [pos]. *)
Fixpoint search_from (r : regex) (pos : nat) (s : str) : option re_match_obj :=
  match match_at r pos s with
  | Some m => Some m
  | None =>
      match s with
      | [] => None
      | _ :: s' => search_from r (S pos) s'
      end
  end.

(** [re.search(r, s)]. *)
Definition re_search (r : regex) (s : str) : option re_match_obj := search_from r 0 s.

(** A replacement template: text and references to group 1. *)
Inductive repl_item : Type :=
| RText (text : str)
| RGroup1.

Definition expand (template : list repl_item) (m : re_match_obj) : str :=
  concat (map (fun it => match it with
                         | RText t => t
                         | RGroup1 => match m_group1 m with Some g => g | None => [] end
                         end) template).

(** [re.sub(r, template, s)]: the subject is scanned from left to right;
    at an index where the pattern matches, the match is replaced by the
    expanded template and the scan goes on at the end of the match, so that
    matches do not overlap; elsewhere the character is copied.  [s] is the
    subject from index [pos] on and [skip] the number of characters of [s]
    that still belong to the match replaced last.  After an empty match the
    scan copies one character and moves on (no pattern of the script matches
    the empty string). *)
Fixpoint sub_scan (r : regex) (template : list repl_item) (pos skip : nat)
    (s : str) : str :=
  match s with
  | [] =>
      match skip with
      | 0 => match match_at r pos [] with
             | Some m => expand template m
             | None => []
             end
      | S _ => []
      end
  | c :: s' =>
      match skip with
      | S k => sub_scan r template (S pos) k s'
      | 0 =>
          match match_at r pos s with
          | Some m =>
              expand template m ++
              match m_end m - pos with
              | 0 => c :: sub_scan r template (S pos) 0 s'
              | S k => sub_scan r template (S pos) k s'
              end
          | None => c :: sub_scan r template (S pos) 0 s'
          end
      end
  end.

(** [re.sub(r, template, s)]. *)
Definition re_sub (r : regex) (template : list repl_item) (s : str) : str :=
  sub_scan r template 0 0 s.

(** [content != original_content]. *)
Fixpoint str_eqb (a b : str) : bool :=
  match a, b with
  | [], [] => true
  | x :: a', y :: b' => char_eqb x y && str_eqb a' b'
  | _, _ => false
  end.

(** A value that is a string or [None], placed in an f-string. *)
Definition fmt (v : option str) : str :=
  match v with
  | Some s => s
  | None => lit "None"
  end.

(** [if v:] for a value that is a string or [None]. *)
Definition truthy (v : option str) : bool :=
  match v with
  | Some (_ :: _) => true
  | _ => false
  end.

(** [range(a, b)]. *)
Definition py_range (a b : nat) : list nat := seq a (b - a).

(** ASCII part of [str.isalnum] and of [str.isspace]. *)
Definition ascii_alnum (c : char) : bool :=
  ((48 <=? c) && (c <=? 57) || (65 <=? c) && (c <=? 90) ||
   (97 <=? c) && (c <=? 122))%N.

Definition ascii_space (c : char) : bool :=
  ((9 <=? c) && (c <=? 13) || (28 <=? c) && (c <=? 32))%N.

(** The tables of the Unicode database for the code points from 128 up,
    which the character classes of [re] consult on [str] patterns. *)
Record unicode_tables : Type := UnicodeTables {
  unicode_alnum : char -> bool;
  unicode_space : char -> bool
}.

(** A table without any letter, digit or space beyond ASCII: enough to run
    the fixers on ASCII text. *)
Definition ascii_only : unicode_tables :=
  {| unicode_alnum := fun _ => false; unicode_space := fun _ => false |}.

(** File paths of the driver: [migrations_dir / migration_name]. *)
Record path : Type := Path { parent : str; name : str }.

Definition path_eqb (p q : path) : bool :=
  str_eqb (parent p) (parent q) && str_eqb (name p) (name q).

(** What the driver does to the outside: lines printed and files opened
    for reading or written. *)
Inductive event : Type :=
| Printed (text : str)
| Read (p : path)
| Wrote (p : path) (content : str).

(** The state the driver runs in: the files under the working directory,
    each with its content, and the events so far (latest last). *)
Record world : Type := World {
  files : path -> option str;
  trace : list event
}.

(** The exception of the model: opening a file that is not there.  Other
    failures of the file system (permissions, a full disk) are outside it. *)
Inductive exn : Type :=
| FileNotFoundError (p : path).

(** A computation returns a value or raises, in a new world. *)
Inductive outcome (A : Type) : Type :=
| Ok (a : A) (w : world)
| Raised (e : exn) (w : world).
Arguments Ok {A} a w.
Arguments Raised {A} e w.

Definition io (A : Type) : Type := world -> outcome A.

Definition ret {A : Type} (a : A) : io A := fun w => Ok a w.

Definition bind {A B : Type} (m : io A) (f : A -> io B) : io B :=
  fun w => match m w with
           | Ok a w' => f a w'
           | Raised e w' => Raised e w'
           end.

Notation "x <- m ;; f" := (bind m (fun x => f))
  (at level 100, m at next level, right associativity).
Notation "m ;;; f" := (bind m (fun _ => f))
  (at level 100, right associativity).

Definition emit (e : event) (w : world) : world :=
  {| files := files w; trace := trace w ++ [e] |}.

(** [print(text)]. *)
Definition print (text : str) : io unit := fun w => Ok tt (emit (Printed text) w).

(** [filepath.exists()]. *)
Definition exists_ (p : path) : io bool :=
  fun w => Ok (match files w p with Some _ => true | None => false end) w.

(** [with open(filepath, 'r') as f: content = f.read()]. *)
Definition read_file (p : path) : io str :=
  fun w => match files w p with
           | Some content => Ok content (emit (Read p) w)
           | None => Raised (FileNotFoundError p) w
           end.

(** [with open(filepath, 'w') as f: f.write(content)]. *)
Definition write_file (p : path) (content : str) : io unit :=
  fun w => Ok tt {| files := fun q => if path_eqb q p then Some content else files w q;
                    trace := trace w ++ [Wrote p content] |}.

(* ===================================================================== *)
(** * The script                                                          *)
(* ===================================================================== *)

Section Script.

Variable U : unicode_tables.

(** The character classes of the patterns: \s, \w, any character but the
    double quote, and \w or a dot.  (In the comments below the double quote of
    a pattern or of an f-string is written <dq>.) *)
Definition is_space (c : char) : bool :=
  if (c <? 128)%N then ascii_space c else unicode_space U c.

Definition is_alnum (c : char) : bool :=
  if (c <? 128)%N then ascii_alnum c else unicode_alnum U c.

Definition is_word (c : char) : bool := is_alnum c || char_eqb c 95%N.

Definition not_dquote (c : char) : bool := negb (char_eqb c dquote).

Definition is_word_or_dot (c : char) : bool := is_word c || char_eqb c 46%N.

(** ** fix_create_index *)

(** [r'CREATE INDEX (?!IF NOT EXISTS)(\w+)'] *)
Definition INDEX_PATTERN : regex :=
  (Chars (lit "CREATE INDEX ") >> NotAhead (Chars (lit "IF NOT EXISTS")) >>
   Group (Plus is_word))%re.

(** [r'CREATE INDEX IF NOT EXISTS \1'] *)
Definition INDEX_REPLACEMENT : list repl_item :=
  [RText (lit "CREATE INDEX IF NOT EXISTS "); RGroup1].

Definition fix_create_index (content : str) : str :=
  re_sub INDEX_PATTERN INDEX_REPLACEMENT content.

(** ** fix_create_policy *)

(** [r'^\s*CREATE POLICY\s+<dq>([^<dq>]+)<dq>'] *)
Definition POLICY_LINE : regex :=
  (Bol >> Star is_space >> Chars (lit "CREATE POLICY") >> Plus is_space >>
   Chars [dquote] >> Group (Plus not_dquote) >> Chars [dquote])%re.

(** [r'CREATE POLICY\s+<dq>([^<dq>]+)<dq>'] *)
Definition POLICY_NAME : regex :=
  (Chars (lit "CREATE POLICY") >> Plus is_space >>
   Chars [dquote] >> Group (Plus not_dquote) >> Chars [dquote])%re.

(** [r'ON\s+([\w.]+)'] *)
Definition ON_TABLE : regex :=
  (Chars (lit "ON") >> Plus is_space >> Group (Plus is_word_or_dot))%re.

(** The lookahead of both line fixers:
    [for j in range(i, min(i + 5, len(lines)))], leaving at the first line
    where [ON_TABLE] is found. *)
Fixpoint first_table (lines : list str) (js : list nat) : option str :=
  match js with
  | [] => None
  | j :: js' =>
      match re_search ON_TABLE (nth j lines []) with
      | Some table_match => m_group1 table_match
      | None => first_table lines js'
      end
  end.

Definition lookahead (lines : list str) (i : nat) : option str :=
  first_table lines (py_range i (Nat.min (i + 5) (length lines))).

(** [f'DROP POLICY IF EXISTS <dq>{policy_name}<dq>'] *)
Definition policy_drop_text (policy_name : option str) : str :=
  lit "DROP POLICY IF EXISTS " ++ dquote :: fmt policy_name ++ [dquote].

(** [f'DROP POLICY IF EXISTS <dq>{policy_name}<dq> ON {table_name};'] *)
Definition policy_drop_line (policy_name table_name : option str) : str :=
  lit "DROP POLICY IF EXISTS " ++ dquote :: fmt policy_name ++ [dquote] ++
  lit " ON " ++ fmt table_name ++ lit ";".

(** One turn of the [while] loop, at index [i]: the new [fixed_lines]. *)
Definition policy_body (lines : list str) (i : nat) (fixed_lines : list str)
    : list str :=
  let line := nth i lines [] in
  let fixed_lines :=
    match re_match POLICY_LINE line with
    | Some _ =>
        match re_search POLICY_NAME line with
        | Some policy_match =>
            let policy_name := m_group1 policy_match in
            let table_name := lookahead lines i in
            if truthy table_name then
              let has_drop :=
                if 0 <? i
                then contains (policy_drop_text policy_name) (nth (i - 1) lines [])
                else false in
              if negb has_drop
              then fixed_lines ++ [policy_drop_line policy_name table_name]
              else fixed_lines
            else fixed_lines
        | None => fixed_lines
        end
    | None => fixed_lines
    end in
  fixed_lines ++ [line].

(** [while i < len(lines): ...; i += 1] *)
Equations? policy_loop (lines : list str) (i : nat) (fixed_lines : list str)
    : list str by wf (length lines - i) lt :=
policy_loop lines i fixed_lines with lt_dec i (length lines) := {
  | left _ => policy_loop lines (S i) (policy_body lines i fixed_lines)
  | right _ => fixed_lines
}.
Proof. lia. Qed.

Definition fix_create_policy (content : str) : str :=
  let lines := split nl content in
  join nl (policy_loop lines 0 []).

(** ** fix_create_trigger *)

(** [r'^\s*CREATE TRIGGER\s+(\w+)'] *)
Definition TRIGGER_LINE : regex :=
  (Bol >> Star is_space >> Chars (lit "CREATE TRIGGER") >> Plus is_space >>
   Group (Plus is_word))%re.

(** [r'CREATE TRIGGER\s+(\w+)'] *)
Definition TRIGGER_NAME : regex :=
  (Chars (lit "CREATE TRIGGER") >> Plus is_space >> Group (Plus is_word))%re.

(** [f'DROP TRIGGER IF EXISTS {trigger_name}'] *)
Definition trigger_drop_text (trigger_name : option str) : str :=
  lit "DROP TRIGGER IF EXISTS " ++ fmt trigger_name.

(** [f'DROP TRIGGER IF EXISTS {trigger_name} ON {table_name};'] *)
Definition trigger_drop_line (trigger_name table_name : option str) : str :=
  lit "DROP TRIGGER IF EXISTS " ++ fmt trigger_name ++
  lit " ON " ++ fmt table_name ++ lit ";".

Definition trigger_body (lines : list str) (i : nat) (fixed_lines : list str)
    : list str :=
  let line := nth i lines [] in
  let fixed_lines :=
    match re_match TRIGGER_LINE line with
    | Some _ =>
        match re_search TRIGGER_NAME line with
        | Some trigger_match =>
            let trigger_name := m_group1 trigger_match in
            let table_name := lookahead lines i in
            if truthy table_name then
              let has_drop :=
                if 0 <? i
                then contains (trigger_drop_text trigger_name) (nth (i - 1) lines [])
                else false in
              if negb has_drop
              then fixed_lines ++ [trigger_drop_line trigger_name table_name]
              else fixed_lines
            else fixed_lines
        | None => fixed_lines
        end
    | None => fixed_lines
    end in
  fixed_lines ++ [line].

Equations? trigger_loop (lines : list str) (i : nat) (fixed_lines : list str)
    : list str by wf (length lines - i) lt :=
trigger_loop lines i fixed_lines with lt_dec i (length lines) := {
  | left _ => trigger_loop lines (S i) (trigger_body lines i fixed_lines)
  | right _ => fixed_lines
}.
Proof. lia. Qed.

Definition fix_create_trigger (content : str) : str :=
  let lines := split nl content in
  join nl (trigger_loop lines 0 []).

(** ** fix_migration_file and main *)

Definition check_mark : char := 10003%N.   (* U+2713 *)
Definition ballot_x : char := 10007%N.     (* U+2717 *)

Definition fix_migration_file (filepath : path) : io bool :=
  print (lit "Fixing " ++ name filepath ++ lit "...") ;;;
  content <- read_file filepath ;;
  let original_content := content in
  (* Apply fixes in order *)
  let content := fix_create_index content in
  let content := fix_create_policy content in
  let content := fix_create_trigger content in
  (* Only write if changes were made *)
  if negb (str_eqb content original_content) then
    write_file filepath content ;;;
    print (lit "  " ++ check_mark :: lit " Fixed " ++ name filepath) ;;;
    ret true
  else
    print (lit "  - No changes needed for " ++ name filepath) ;;;
    ret false.

Definition migrations_dir : str := lit "supabase/migrations".

Definition migrations_to_fix : list str :=
  [ lit "00003_brand_brain_schema.sql";
    lit "00004_rate_limiting.sql";
    lit "00006_post_generator_schema.sql";
    lit "00007_engagement_agent.sql";
    lit "00008_engagement_agent_schema.sql";
    lit "00009_payment_subscription_schema.sql";
    lit "00010_social_scheduler_schema.sql";
    lit "00011_free_tier_initialization.sql" ].

(** [for migration_name in migrations_to_fix: ...], returning
    [fixed_count]. *)
Fixpoint main_loop (names : list str) (fixed_count : nat) : io nat :=
  match names with
  | [] => ret fixed_count
  | migration_name :: names' =>
      let filepath := Path migrations_dir migration_name in
      present <- exists_ filepath ;;
      fixed_count <-
        (if present then
           fixed <- fix_migration_file filepath ;;
           ret (if fixed then fixed_count + 1 else fixed_count)
         else
           print (lit "  " ++ ballot_x :: lit " File not found: " ++ migration_name) ;;;
           ret fixed_count) ;;
      main_loop names' fixed_count
  end.

Definition summary_line (fixed_count : nat) : str :=
  nl :: check_mark :: lit " Fixed " ++ str_of_nat fixed_count ++ lit " migration files".

Definition main : io unit :=
  fixed_count <- main_loop migrations_to_fix 0 ;;
  print (summary_line fixed_count) ;;;
  print (lit "All migrations are now idempotent and safe to re-run!").

(** ** The line fixers as one procedure

    Section 4.3 of the specification describes the trigger fixer as the
    algorithm of the policy fixer with another pattern and another guard
    text.  [line_fixer] is that common procedure, written over the lines
    rather than over indices: each line is looked at together with the line
    before it and the window made of the line and the four next ones. *)

Record guard_rule : Type := GuardRule {
  rule_line : regex;                   (* the statement, at the beginning of a line *)
  rule_name : regex;                   (* the statement, its name as group 1       *)
  rule_drop_text : option str -> str   (* the guard up to the name                 *)
}.

Definition rule_drop_line (R : guard_rule) (name table : option str) : str :=
  rule_drop_text R name ++ lit " ON " ++ fmt table ++ lit ";".

(** The table of the first line of the window in which [ON_TABLE] is found. *)
Fixpoint window_table (window : list str) : option str :=
  match window with
  | [] => None
  | l :: window' =>
      match re_search ON_TABLE l with
      | Some m => m_group1 m
      | None => window_table window'
      end
  end.

(** The guard lines to insert before [line]: at most one. *)
Definition guard_for (R : guard_rule) (prev : option str) (line : str)
    (window : list str) : list str :=
  match re_match (rule_line R) line, re_search (rule_name R) line with
  | Some _, Some m =>
      let name := m_group1 m in
      let table := window_table window in
      if truthy table then
        if match prev with
           | Some p => contains (rule_drop_text R name) p
           | None => false
           end
        then []
        else [rule_drop_line R name table]
      else []
  | _, _ => []
  end.

Fixpoint scan (R : guard_rule) (prev : option str) (lines : list str) : list str :=
  match lines with
  | [] => []
  | line :: rest =>
      guard_for R prev line (firstn 5 lines) ++ line :: scan R (Some line) rest
  end.

Definition line_fixer (R : guard_rule) (content : str) : str :=
  join nl (scan R None (split nl content)).

Definition POLICY_RULE : guard_rule :=
  {| rule_line := POLICY_LINE; rule_name := POLICY_NAME;
     rule_drop_text := policy_drop_text |}.

Definition TRIGGER_RULE : guard_rule :=
  {| rule_line := TRIGGER_LINE; rule_name := TRIGGER_NAME;
     rule_drop_text := trigger_drop_text |}.

End Script.

(* ===================================================================== *)
(** * Vocabulary of the statements                                        *)
(* ===================================================================== *)

(** ** Patterns *)

(** [matches r pos pre t g g']: at index [pos], in front of the text [t],
    the pattern [r] can consume exactly [pre], taking group 1 from [g] to
    [g'].  This is the declarative reading of a pattern; [exec] picks one
    such [pre] (the first in backtracking order). *)
Fixpoint matches (r : regex) (pos : nat) (pre t : str) (g g' : option str) : Prop :=
  match r with
  | Chars text => pre = text /\ g' = g
  | Plus cls => pre <> [] /\ forallb cls pre = true /\ g' = g
  | Star cls => forallb cls pre = true /\ g' = g
  | Group r1 => (exists g0, matches r1 pos pre t g g0) /\ g' = Some pre
  | NotAhead r1 =>
      pre = [] /\ g' = g /\ exec r1 pos t g (fun _ _ _ => Some tt) = None
  | Bol => pre = [] /\ pos = 0 /\ g' = g
  | Seq r1 r2 =>
      exists pre1 pre2 g1,
        pre = pre1 ++ pre2 /\
        matches r1 pos pre1 (pre2 ++ t) g g1 /\
        matches r2 (pos + length pre1) pre2 t g1 g'
  end.

(** The longest prefix of [s] whose characters are in the class, and what
    follows it. *)
Fixpoint take_while (cls : char -> bool) (s : str) : str :=
  match s with
  | c :: s' => if cls c then c :: take_while cls s' else []
  | [] => []
  end.

Fixpoint drop_while (cls : char -> bool) (s : str) : str :=
  match s with
  | c :: s' => if cls c then drop_while cls s' else s
  | [] => []
  end.

(** ** Lines *)

(** A string that holds no newline. *)
Definition one_line (l : str) : Prop := ~ In nl l.

(** The line before index [i], when there is one. *)
Definition prev_line (lines : list str) (i : nat) : option str :=
  if 0 <? i then Some (nth (i - 1) lines []) else None.

(** [fixed_lines[-1]], when there is one. *)
Definition last_line (ls : list str) : option str :=
  match rev ls with
  | [] => None
  | l :: _ => Some l
  end.

(** [s] between double quotes. *)
Definition quoted (s : str) : str := dquote :: s ++ [dquote].

(** [Interleaved P xs ys]: [ys] is [xs], every element kept and in order,
    with elements that satisfy [P] inserted. *)
Inductive Interleaved (P : str -> Prop) : list str -> list str -> Prop :=
| Interleaved_nil : Interleaved P [] []
| Interleaved_keep l xs ys :
    Interleaved P xs ys -> Interleaved P (l :: xs) (l :: ys)
| Interleaved_insert g xs ys :
    P g -> Interleaved P xs ys -> Interleaved P xs (g :: ys).

(** ** Rules of line fixers *)

(** The name of the statement that a line holds for the rule, if it holds
    one: the line matches [rule_line] and [rule_name] finds the name. *)
Definition statement_name (R : guard_rule) (line : str) : option str :=
  match re_match (rule_line R) line with
  | Some _ =>
      match re_search (rule_name R) line with
      | Some m => m_group1 m
      | None => None
      end
  | None => None
  end.

(** [text in prev_line], false on the first line. *)
Definition has_text (text : str) (prev : option str) : bool :=
  match prev with
  | Some p => contains text p
  | None => false
  end.

(** The guard lines of a rule. *)
Definition guard_line_of (R : guard_rule) (g : str) : Prop :=
  exists name table, g = rule_drop_line R (Some name) (Some table).

(** What the proofs below need to know of a rule. *)
Record rule_wf (U : unicode_tables) (R : guard_rule) : Prop := RuleWf {
  (* the name pattern captures a name *)
  wf_name : forall line m,
      re_search (rule_name R) line = Some m ->
      exists name, m_group1 m = Some name /\ name <> [] /\
                   (one_line line -> one_line name);
  (* the guard text is on one line when the name is *)
  wf_text : forall name, one_line name -> one_line (rule_drop_text R (Some name));
  (* a guard line is not itself a statement of the rule *)
  wf_guard : forall name table,
      re_match (rule_line R) (rule_drop_line R name table) = None
}.
Arguments wf_name {U R} _ line m _.
Arguments wf_text {U R} _ name _.
Arguments wf_guard {U R} _ name table.

(** Every statement of the rule in [lines] has a table in its window. *)
Definition all_tabled U (R : guard_rule) (lines : list str) : Prop :=
  forall before line after name,
    lines = before ++ line :: after ->
    statement_name R line = Some name ->
    window_table U (firstn 5 (line :: after)) <> None.

(** ** The policy fixer *)

(** The name [p] of the policy when the line is a [CREATE POLICY <dq>p<dq>]
    statement for the fixer: the two tests that open the loop body. *)
Definition policy_statement U (line : str) : option str :=
  match re_match (POLICY_LINE U) line with
  | Some _ =>
      match re_search (POLICY_NAME U) line with
      | Some policy_match => m_group1 policy_match
      | None => None
      end
  | None => None
  end.

(** The line of a statement for the fixer: white space, CREATE POLICY,
    white space, and the name between double quotes. *)
Definition policy_line_shape U (line p : str) : Prop :=
  exists ws ws' after,
    line = ws ++ lit "CREATE POLICY" ++ ws' ++ quoted p ++ after /\
    forallb (is_space U) ws = true /\
    ws' <> [] /\ forallb (is_space U) ws' = true /\
    p <> [] /\ forallb not_dquote p = true.

(** The first line of the window of line [i] (the lines of index [i] to
    [i + 4], as far as there are lines) in which [ON_TABLE] is found gives
    the table [t]. *)
Definition first_on_clause U (lines : list str) (i : nat) (t : str) : Prop :=
  exists j m,
    i <= j < Nat.min (i + 5) (length lines) /\
    (forall j', i <= j' < j -> re_search (ON_TABLE U) (nth j' lines []) = None) /\
    re_search (ON_TABLE U) (nth j lines []) = Some m /\
    m_group1 m = Some t.

(** No line of the window of line [i] has an ON clause. *)
Definition no_on_clause U (lines : list str) (i : nat) : Prop :=
  forall j, i <= j < Nat.min (i + 5) (length lines) ->
            re_search (ON_TABLE U) (nth j lines []) = None.

(** [fixed_lines] when the loop reaches index [i]: the output so far. *)
Definition policy_state U (lines : list str) (i : nat) : list str :=
  fold_left (fun fixed_lines j => policy_body U lines j fixed_lines)
            (py_range 0 i) [].

(** The output has the guard of [p] on [t] right before line [i]. *)
Definition guard_precedes U (lines : list str) (i : nat) (p t : str) : Prop :=
  exists front,
    policy_loop U lines 0 [] =
    front ++ policy_drop_line (Some p) (Some t) :: nth i lines [] ::
    policy_loop U lines (S i) [].

(** The guard lines of the two fixers. *)
Definition policy_guard_line (g : str) : Prop :=
  exists name table, g = policy_drop_line (Some name) (Some table).

Definition trigger_guard_line (g : str) : Prop :=
  exists name table, g = trigger_drop_line (Some name) (Some table).

(** ** The index fixer *)

(** The letter C, with which every match of the index pattern begins. *)
Definition letter_C : char := 67%N.

(** An occurrence of the pattern at the beginning of [s]: the text
    CREATE INDEX and a space, not followed by IF NOT EXISTS, followed by an
    identifier, the longest run of word characters there, which is not
    empty.  The result is the identifier and what follows it. *)
Definition index_here U (s : str) : option (str * str) :=
  match strip_prefix (lit "CREATE INDEX ") s with
  | Some s1 =>
      if starts_with (lit "IF NOT EXISTS") s1 then None
      else match take_while (is_word U) s1 with
           | [] => None
           | id => Some (id, drop_while (is_word U) s1)
           end
  | None => None
  end.

(** No occurrence of the pattern begins right after CREATE INDEX, a space
    and a run of word characters, that is inside the identifier that
    follows another CREATE INDEX. *)
Definition no_nested_occurrence U (content : str) : Prop :=
  forall before w t,
    content = before ++ lit "CREATE INDEX " ++ w ++ t ->
    forallb (is_word U) w = true ->
    index_here U t = None.

(** ** The driver *)

(** The files written in a trace, with the content written. *)
Definition writes (tr : list event) : list (path * str) :=
  flat_map (fun e => match e with
                     | Wrote p content => [(p, content)]
                     | _ => []
                     end) tr.

(** The content after the three fixers, in the order of the driver. *)
Definition fixed_content U (content : str) : str :=
  fix_create_trigger U (fix_create_policy U (fix_create_index U content)).

(** The events of [fix_migration_file] on an existing file. *)
Definition fix_events U (filepath : path) (content : str) : list event :=
  if negb (str_eqb (fixed_content U content) content) then
    [ Printed (lit "Fixing " ++ name filepath ++ lit "...");
      Read filepath;
      Wrote filepath (fixed_content U content);
      Printed (lit "  " ++ check_mark :: lit " Fixed " ++ name filepath) ]
  else
    [ Printed (lit "Fixing " ++ name filepath ++ lit "...");
      Read filepath;
      Printed (lit "  - No changes needed for " ++ name filepath) ].

(** The world after [fix_migration_file] on an existing file. *)
Definition after_fix U (filepath : path) (content : str) (w : world) : world :=
  if negb (str_eqb (fixed_content U content) content) then
    {| files := fun q => if path_eqb q filepath
                         then Some (fixed_content U content) else files w q;
       trace := trace w ++
                [ Printed (lit "Fixing " ++ name filepath ++ lit "...");
                  Read filepath;
                  Wrote filepath (fixed_content U content);
                  Printed (lit "  " ++ check_mark :: lit " Fixed " ++ name filepath) ] |}
  else
    {| files := files w;
       trace := trace w ++
                [ Printed (lit "Fixing " ++ name filepath ++ lit "...");
                  Read filepath;
                  Printed (lit "  - No changes needed for " ++ name filepath) ] |}.

(** The line printed for a file that is not there. *)
Definition not_found_line (migration_name : str) : str :=
  lit "  " ++ ballot_x :: lit " File not found: " ++ migration_name.

(** The events that one name of the list gives rise to, in the world [w]. *)
Definition file_events U (w : world) (migration_name : str) : list event :=
  match files w (Path migrations_dir migration_name) with
  | Some content => fix_events U (Path migrations_dir migration_name) content
  | None => [Printed (not_found_line migration_name)]
  end.

(** The file of that name is there and the fixers change its content. *)
Definition modified U (w : world) (migration_name : str) : bool :=
  match files w (Path migrations_dir migration_name) with
  | Some content => negb (str_eqb (fixed_content U content) content)
  | None => false
  end.

(** ** Sample inputs *)

(** The example of section 8 of the specification. *)
Definition read_own_example : str :=
  lit "CREATE POLICY " ++ quoted (lit "read_own") ++ lit " ON profiles" ++
  nl :: lit "FOR SELECT USING (...);".

(** A policy that is dropped on the line before, on another table. *)
Definition other_drop_example : str :=
  lit "DROP POLICY IF EXISTS " ++ quoted (lit "p") ++ lit " ON old;" ++
  nl :: lit "CREATE POLICY " ++ quoted (lit "p") ++ lit " ON t".

(** A statement without any ON clause. *)
Definition no_table_example : str :=
  lit "CREATE POLICY " ++ quoted (lit "p") ++ nl :: lit "FOR SELECT;".

(** Two statements; the ON clause of the second is out of the window of
    the first. *)
Definition far_table_example : str :=
  lit "CREATE POLICY " ++ quoted (lit "a") ++
  nl :: lit "CREATE POLICY " ++ quoted (lit "b") ++
  nl :: lit "x" ++ nl :: lit "y" ++ nl :: lit "z" ++ nl :: lit "ON t".

(** An occurrence inside the identifier of another. *)
Definition nested_index_example : str := lit "CREATE INDEX CREATE INDEX foo".

(** ** The trigger fixer *)

(** The name [n] of the trigger when the line is a [CREATE TRIGGER n]
    statement for the fixer: the two tests that open the loop body. *)
Definition trigger_statement U (line : str) : option str :=
  match re_match (TRIGGER_LINE U) line with
  | Some _ =>
      match re_search (TRIGGER_NAME U) line with
      | Some trigger_match => m_group1 trigger_match
      | None => None
      end
  | None => None
  end.

(** [fixed_lines] when the loop of the trigger fixer reaches index [i]. *)
Definition trigger_state U (lines : list str) (i : nat) : list str :=
  fold_left (fun fixed_lines j => trigger_body U lines j fixed_lines)
            (py_range 0 i) [].

(** A trigger that is dropped on the line before under a longer name. *)
Definition longer_name_example : str :=
  lit "DROP TRIGGER IF EXISTS audit_v2 ON t;" ++
  nl :: lit "CREATE TRIGGER audit AFTER INSERT ON t".

(** A trigger whose ON clause is on the next line. *)
Definition trigger_example : str :=
  lit "  CREATE TRIGGER trg" ++ nl :: lit "  BEFORE UPDATE ON public.users".

(** A trigger without any ON clause. *)
Definition trigger_no_table_example : str :=
  lit "CREATE TRIGGER trg" ++ nl :: lit "EXECUTE PROCEDURE f();".

(** ** Guards and their statements *)

(** [Guarded statement guard xs ys]: [ys] is [xs] where some of the lines
    that hold a statement, of name [n], have got a line [guard n t] right
    before them, for some table [t]; nothing else is inserted. *)
Inductive Guarded (statement : str -> option str) (guard : str -> str -> str)
  : list str -> list str -> Prop :=
| Guarded_nil : Guarded statement guard [] []
| Guarded_keep l xs ys :
    Guarded statement guard xs ys ->
    Guarded statement guard (l :: xs) (l :: ys)
| Guarded_guard n t l xs ys :
    statement l = Some n ->
    Guarded statement guard xs ys ->
    Guarded statement guard (l :: xs) (guard n t :: l :: ys).

(** SQL in lower case, with an index, a policy and a trigger. *)
Definition lower_case_example : str :=
  lit "create index a on t(x);" ++
  nl :: lit "create policy " ++ quoted (lit "p") ++ lit " on t;" ++
  nl :: lit "create trigger g after insert on t;".

(** ** Reading the patterns *)

(** No character is both white space and a word character, as in the
    tables of Python. *)
Definition space_not_word U : Prop :=
  forall c, is_space U c = true -> is_word U c = false.

(** The line of a trigger statement of name [n] for the fixer: white
    space, CREATE TRIGGER, white space, and the name, which is all the word
    characters that are there. *)
Definition trigger_line_shape U (line n : str) : Prop :=
  exists ws ws' after,
    line = ws ++ lit "CREATE TRIGGER" ++ ws' ++ n ++ after /\
    forallb (is_space U) ws = true /\
    ws' <> [] /\ forallb (is_space U) ws' = true /\
    n <> [] /\ forallb (is_word U) n = true /\
    take_while (is_word U) after = [].

(** The line holds the two letters ON, white space and the text [table],
    which is all the word characters and dots that are there. *)
Definition on_clause U (line table : str) : Prop :=
  exists before ws after,
    line = before ++ lit "ON" ++ ws ++ table ++ after /\
    ws <> [] /\ forallb (is_space U) ws = true /\
    table <> [] /\ forallb (is_word_or_dot U) table = true /\
    take_while (is_word_or_dot U) after = [].

(** The line holds, anywhere, the two letters ON, white space and then a
    word character or a dot. *)
Definition has_on_text U (line : str) : Prop :=
  exists before ws c after,
    line = before ++ lit "ON" ++ ws ++ c :: after /\
    ws <> [] /\ forallb (is_space U) ws = true /\
    is_word_or_dot U c = true /\ is_space U c = false.

(** A trigger whose only ON is the end of the word FUNCTION. *)
Definition function_example : str :=
  lit "CREATE TRIGGER g" ++ nl :: lit "EXECUTE FUNCTION f();".

(** A directory without any file. *)
Definition empty_world : world := {| files := fun _ => None; trace := [] |}.

(* ===================================================================== *)
(** * Lists and strings *)
(* ===================================================================== *)

Lemma skipn_nth_cons {A : Type} (d : A) (l : list A) (i : nat) :
  i < length l -> skipn i l = nth i l d :: skipn (S i) l.
Proof.
  revert i; induction l as [|a l IH]; intros [|i] H; simpl in *; try lia.
  - reflexivity.
  - apply IH. lia.
Qed.

Lemma strip_prefix_Some (p s t : str) :
  strip_prefix p s = Some t <-> s = p ++ t.
Proof.
  revert s; induction p as [|a p IH]; intros s; simpl.
  - split; [intros [= ->]; reflexivity | intros ->; reflexivity].
  - destruct s as [|b s]; [split; discriminate|].
    unfold char_eqb. destruct (N.eqb_spec a b) as [->|N].
    + rewrite IH. split; [intros ->; reflexivity | intros [= ->]; reflexivity].
    + split; [discriminate | intros [= E _]; congruence].
Qed.

Lemma strip_prefix_app (p t : str) : strip_prefix p (p ++ t) = Some t.
Proof. apply strip_prefix_Some. reflexivity. Qed.

Lemma starts_with_app (p t : str) : starts_with p (p ++ t) = true.
Proof. unfold starts_with. rewrite strip_prefix_app. reflexivity. Qed.

Lemma contains_prefix (p t : str) : contains p (p ++ t) = true.
Proof.
  destruct (p ++ t) eqn:E; cbn [contains]; rewrite <- E, starts_with_app;
    reflexivity.
Qed.

Lemma take_drop_while (cls : char -> bool) (s : str) :
  take_while cls s ++ drop_while cls s = s.
Proof.
  induction s as [|c s IH]; simpl; [reflexivity|].
  destruct (cls c); simpl; [rewrite IH|]; reflexivity.
Qed.

Lemma take_while_all (cls : char -> bool) (s : str) :
  forallb cls (take_while cls s) = true.
Proof.
  induction s as [|c s IH]; simpl; [reflexivity|].
  destruct (cls c) eqn:E; simpl; [rewrite E, IH|]; reflexivity.
Qed.

Lemma firstn_take_while (cls : char -> bool) (s : str) :
  firstn (length (take_while cls s)) s = take_while cls s.
Proof.
  induction s as [|c s IH]; simpl; [reflexivity|].
  destruct (cls c); simpl; [rewrite IH|]; reflexivity.
Qed.

Lemma take_while_app_stop (cls : char -> bool) (a z : str) :
  forallb cls a = true ->
  take_while cls z = [] ->
  take_while cls (a ++ z) = a.
Proof.
  induction a as [|c a IH]; intros F Z; simpl in *; [exact Z|].
  apply andb_prop in F. destruct F as [Hc F]. rewrite Hc, IH; auto.
Qed.

Lemma take_drop_while_nil (cls : char -> bool) (s : str) :
  take_while cls (drop_while cls s) = [].
Proof.
  induction s as [|c s IH]; simpl; [reflexivity|].
  destruct (cls c) eqn:E; [exact IH|]. simpl. rewrite E. reflexivity.
Qed.

Lemma drop_while_app_stop (cls : char -> bool) (a z : str) :
  forallb cls a = true ->
  take_while cls z = [] ->
  drop_while cls (a ++ z) = z.
Proof.
  intros F Z.
  assert (T := take_while_app_stop cls a z F Z).
  assert (E := take_drop_while cls (a ++ z)). rewrite T in E.
  apply app_inv_head in E. exact E.
Qed.

Lemma forallb_not_In (cls : char -> bool) (c : char) (s : str) :
  cls c = false -> forallb cls s = true -> ~ In c s.
Proof.
  intros Hc F I. rewrite forallb_forall in F. apply F in I. congruence.
Qed.

Lemma forallb_skipn (cls : char -> bool) (k : nat) (s : str) :
  forallb cls s = true -> forallb cls (skipn k s) = true.
Proof.
  intros F. rewrite <- (firstn_skipn k s), forallb_app in F.
  apply andb_prop in F. tauto.
Qed.

Lemma forallb_firstn (cls : char -> bool) (k : nat) (s : str) :
  forallb cls s = true -> forallb cls (firstn k s) = true.
Proof.
  intros F. rewrite <- (firstn_skipn k s), forallb_app in F.
  apply andb_prop in F. tauto.
Qed.

Lemma skipn_two (a b c : str) : skipn (length a + length b) (a ++ b ++ c) = c.
Proof.
  rewrite app_assoc, <- length_app, skipn_app, skipn_all, Nat.sub_diag.
  reflexivity.
Qed.

Lemma cons_eq_inv {A : Type} (a b : A) (x y : list A) :
  a :: x = b :: y -> a = b /\ x = y.
Proof. intros H. injection H. auto. Qed.

Lemma last_line_app (ls : list str) (l : str) : last_line (ls ++ [l]) = Some l.
Proof. unfold last_line. rewrite rev_unit. reflexivity. Qed.

Lemma str_eqb_eq (a b : str) : str_eqb a b = true <-> a = b.
Proof.
  revert b; induction a as [|x a IH]; intros [|y b]; simpl;
    try (split; [discriminate|discriminate]); [tauto|].
  unfold char_eqb. rewrite andb_true_iff, N.eqb_eq, IH.
  split; [intros [-> ->]; reflexivity|intros [= -> ->]; auto].
Qed.

Lemma str_eqb_refl (a : str) : str_eqb a a = true.
Proof. apply str_eqb_eq. reflexivity. Qed.

Lemma path_eqb_eq (p q : path) : path_eqb p q = true <-> p = q.
Proof.
  destruct p as [d n], q as [d' n']. unfold path_eqb. simpl.
  rewrite andb_true_iff, !str_eqb_eq.
  split; [intros [-> ->]; reflexivity|intros [= -> ->]; auto].
Qed.

Lemma flat_map_agree {A B : Type} (f g : A -> list B) (l : list A) :
  (forall a, In a l -> f a = g a) -> flat_map f l = flat_map g l.
Proof.
  induction l as [|a l IH]; intros H; simpl; [reflexivity|].
  rewrite (H a), IH; auto using in_eq, in_cons.
Qed.

Lemma filter_agree {A : Type} (f g : A -> bool) (l : list A) :
  (forall a, In a l -> f a = g a) -> filter f l = filter g l.
Proof.
  induction l as [|a l IH]; intros H; simpl; [reflexivity|].
  rewrite (H a), IH; auto using in_eq, in_cons.
Qed.

(* ===================================================================== *)
(** * Lines *)
(* ===================================================================== *)

Lemma split_cons (sep : char) (s : str) : exists l ls, split sep s = l :: ls.
Proof.
  induction s as [|c s (l & ls & E)]; simpl.
  - eauto.
  - destruct (char_eqb c sep); [eauto|]. rewrite E. eauto.
Qed.

Lemma split_not_nil (sep : char) (s : str) : split sep s <> [].
Proof. destruct (split_cons sep s) as (l & ls & ->). discriminate. Qed.

Lemma split_one_line (s : str) : Forall one_line (split nl s).
Proof.
  induction s as [|c s IH]; simpl.
  - constructor; [intros []|constructor].
  - unfold char_eqb. destruct (N.eqb_spec c nl) as [->|N].
    + constructor; [intros []|exact IH].
    + destruct (split_cons nl s) as (l & ls & E). rewrite E in *.
      inversion IH; subst.
      constructor; [|assumption].
      intros [E'|I]; [congruence|contradiction].
Qed.

Lemma join_split (s : str) : join nl (split nl s) = s.
Proof.
  induction s as [|c s IH]; simpl.
  - reflexivity.
  - destruct (split_cons nl s) as (l & ls & E). rewrite E in *.
    unfold char_eqb. destruct (N.eqb_spec c nl) as [->|N].
    + change (join nl ([] :: l :: ls)) with (nl :: join nl (l :: ls)).
      rewrite IH. reflexivity.
    + destruct ls; simpl in *; rewrite <- IH; reflexivity.
Qed.

Lemma split_app_one_line (l s : str) :
  one_line l ->
  split nl (l ++ nl :: s) = l :: split nl s.
Proof.
  induction l as [|c l IH]; intros H; simpl.
  - reflexivity.
  - unfold char_eqb. destruct (N.eqb_spec c nl) as [->|N].
    + exfalso. apply H. left. reflexivity.
    + rewrite IH; [reflexivity|]. intros I. apply H. right. exact I.
Qed.

Lemma split_one (l : str) : one_line l -> split nl l = [l].
Proof.
  induction l as [|c l IH]; intros H; simpl.
  - reflexivity.
  - unfold char_eqb. destruct (N.eqb_spec c nl) as [->|N].
    + exfalso. apply H. left. reflexivity.
    + rewrite IH; [reflexivity|]. intros I. apply H. right. exact I.
Qed.

Lemma split_join (ls : list str) :
  ls <> [] -> Forall one_line ls -> split nl (join nl ls) = ls.
Proof.
  induction ls as [|l ls IH]; intros N F; [congruence|].
  inversion F as [|? ? Hl Fls]; subst.
  destruct ls as [|l' ls].
  - simpl. apply split_one. exact Hl.
  - change (join nl (l :: l' :: ls)) with (l ++ nl :: join nl (l' :: ls)).
    rewrite split_app_one_line by exact Hl.
    rewrite IH; [reflexivity|discriminate|exact Fls].
Qed.

Lemma one_line_app (a b : str) : one_line a -> one_line b -> one_line (a ++ b).
Proof. unfold one_line. intros Ha Hb I. apply in_app_or in I. tauto. Qed.

Lemma one_line_lit_ON : one_line (lit " ON ").
Proof. unfold one_line. cbv. intuition discriminate. Qed.

Lemma one_line_lit_semicolon : one_line (lit ";").
Proof. unfold one_line. cbv. intuition discriminate. Qed.

Lemma one_line_part (a b c : str) : one_line (a ++ b ++ c) -> one_line b.
Proof.
  unfold one_line. intros H I. apply H.
  apply in_or_app. right. apply in_or_app. left. exact I.
Qed.

(* ===================================================================== *)
(** * What a match of the engine is *)
(* ===================================================================== *)

Lemma greedy_inv {A : Type} (cls : char -> bool) (s : str) :
  forall pos (k : nat -> str -> option A) a,
    greedy cls pos s k = Some a ->
    exists pre t, s = pre ++ t /\ forallb cls pre = true /\
                  k (pos + length pre) t = Some a.
Proof.
  induction s as [|c s IH]; intros pos k a H; simpl in H.
  - exists [], []. simpl. rewrite Nat.add_0_r. auto.
  - destruct (cls c) eqn:Hc.
    + destruct (greedy cls (S pos) s k) as [a'|] eqn:G.
      * injection H as ->. apply IH in G. destruct G as (pre & t & -> & F & K).
        exists (c :: pre), t. simpl. rewrite Hc, F.
        replace (pos + S (length pre)) with (S pos + length pre) by lia. auto.
      * exists [], (c :: s). simpl. rewrite Nat.add_0_r. auto.
    + exists [], (c :: s). simpl. rewrite Nat.add_0_r. auto.
Qed.

(** Whatever [exec] returns comes from its continuation, called after a
    prefix of the subject that the pattern matches. *)
Lemma exec_sound (r : regex) :
  forall (A : Type) pos s g (k : nat -> str -> option str -> option A) a,
    exec r pos s g k = Some a ->
    exists pre t g',
      s = pre ++ t /\ matches r pos pre t g g' /\
      k (pos + length pre) t g' = Some a.
Proof.
  induction r as [text|cls|cls|r1 IH1|r1 IH1| |r1 IH1 r2 IH2];
    intros A pos s g k a H; simpl in H.
  - destruct (strip_prefix text s) as [s'|] eqn:E; [|discriminate].
    apply strip_prefix_Some in E. exists text, s', g. simpl. auto.
  - destruct s as [|c s]; [discriminate|].
    destruct (cls c) eqn:Hc; [|discriminate].
    apply greedy_inv in H. destruct H as (pre & t & -> & F & K).
    exists (c :: pre), t, g. simpl. rewrite Hc, F.
    replace (pos + S (length pre)) with (S pos + length pre) by lia.
    repeat split; auto. discriminate.
  - apply greedy_inv in H. destruct H as (pre & t & -> & F & K).
    exists pre, t, g. simpl. auto.
  - apply IH1 in H. destruct H as (pre & t & g0 & -> & M & K).
    replace (pos + length pre - pos) with (length pre) in K by lia.
    rewrite firstn_app, Nat.sub_diag, firstn_all in K. simpl in K.
    rewrite app_nil_r in K.
    exists pre, t, (Some pre). simpl. eauto.
  - destruct (exec r1 pos s g (fun _ _ _ => Some tt)) eqn:E; [discriminate|].
    exists [], s, g. simpl. rewrite Nat.add_0_r. auto.
  - destruct (Nat.eqb_spec pos 0) as [->|]; [|discriminate].
    exists [], s, g. simpl. auto.
  - apply IH1 in H. destruct H as (pre1 & t1 & g1 & -> & M1 & K1).
    apply IH2 in K1. destruct K1 as (pre2 & t & g' & -> & M2 & K).
    exists (pre1 ++ pre2), t, g'. rewrite <- app_assoc, length_app, Nat.add_assoc.
    split; [reflexivity|]. split; [|exact K].
    simpl. exists pre1, pre2, g1. auto.
Qed.

Lemma match_at_sound (r : regex) (pos : nat) (s : str) (m : re_match_obj) :
  match_at r pos s = Some m ->
  exists pre t g,
    s = pre ++ t /\ matches r pos pre t None g /\
    m = MatchObj pos (pos + length pre) g.
Proof.
  unfold match_at. intros H. apply exec_sound in H.
  destruct H as (pre & t & g & -> & M & [= <-]). eauto 7.
Qed.

Lemma search_from_sound (r : regex) (s : str) :
  forall pos m,
    search_from r pos s = Some m ->
    exists skipped s',
      s = skipped ++ s' /\ match_at r (pos + length skipped) s' = Some m.
Proof.
  induction s as [|c s IH]; intros pos m H; simpl in H.
  - exists [], []. simpl. rewrite Nat.add_0_r.
    destruct (match_at r pos []); [auto|discriminate].
  - destruct (match_at r pos (c :: s)) as [m'|] eqn:E.
    + injection H as ->. exists [], (c :: s). simpl. rewrite Nat.add_0_r. auto.
    + apply IH in H. destruct H as (sk & s' & -> & M).
      exists (c :: sk), s'. simpl.
      replace (pos + S (length sk)) with (S pos + length sk) by lia. auto.
Qed.

(** A match found by [re.search] lies inside the subject. *)
Lemma re_search_sound (r : regex) (s : str) (m : re_match_obj) :
  re_search r s = Some m ->
  exists skipped pre t g,
    s = skipped ++ pre ++ t /\
    matches r (length skipped) pre t None g /\
    m = MatchObj (length skipped) (length skipped + length pre) g.
Proof.
  unfold re_search. intros H. apply search_from_sound in H.
  destruct H as (sk & s' & -> & M). simpl in M.
  apply match_at_sound in M. destruct M as (pre & t & g & -> & M & ->).
  eauto 8.
Qed.

Lemma greedy_ext {A : Type} (cls : char -> bool) (s : str) :
  forall pos (k k' : nat -> str -> option A),
    (forall p t, k p t = k' p t) ->
    greedy cls pos s k = greedy cls pos s k'.
Proof.
  induction s as [|c s IH]; intros pos k k' H; simpl; [apply H|].
  rewrite (IH (S pos) k k' H), H. reflexivity.
Qed.

Lemma exec_ext (r : regex) :
  forall (A : Type) pos s g (k k' : nat -> str -> option str -> option A),
    (forall p t g', k p t g' = k' p t g') ->
    exec r pos s g k = exec r pos s g k'.
Proof.
  induction r as [text|cls|cls|r1 IH1|r1 IH1| |r1 IH1 r2 IH2];
    intros A pos s g k k' H; simpl.
  - destruct (strip_prefix text s); [apply H|reflexivity].
  - destruct s as [|c s]; [reflexivity|].
    destruct (cls c); [|reflexivity].
    apply greedy_ext. intros p t. apply H.
  - apply greedy_ext. intros p t. apply H.
  - apply IH1. intros p t _. apply H.
  - rewrite H. reflexivity.
  - rewrite H. reflexivity.
  - apply IH1. intros p t g'. apply IH2. exact H.
Qed.

Lemma greedy_map {A B : Type} (f : A -> B) (cls : char -> bool) (s : str) :
  forall pos (k : nat -> str -> option A),
    greedy cls pos s (fun p t => option_map f (k p t)) =
    option_map f (greedy cls pos s k).
Proof.
  induction s as [|c s IH]; intros pos k; simpl; [reflexivity|].
  destruct (cls c); [|reflexivity].
  rewrite IH. destruct (greedy cls (S pos) s k); reflexivity.
Qed.

(** What is done with the result of a match does not change the match. *)
Lemma exec_map (r : regex) :
  forall (A B : Type) (f : A -> B) pos s g
         (k : nat -> str -> option str -> option A),
    exec r pos s g (fun p t g' => option_map f (k p t g')) =
    option_map f (exec r pos s g k).
Proof.
  induction r as [text|cls|cls|r1 IH1|r1 IH1| |r1 IH1 r2 IH2];
    intros A B f pos s g k; simpl.
  - destruct (strip_prefix text s); reflexivity.
  - destruct s as [|c s]; [reflexivity|].
    destruct (cls c); [|reflexivity].
    apply (greedy_map f cls s (S pos) (fun p t => k p t g)).
  - apply (greedy_map f cls s pos (fun p t => k p t g)).
  - apply (IH1 A B f pos s g (fun p t _ => k p t (Some (firstn (p - pos) s)))).
  - destruct (exec r1 pos s g (fun _ _ _ => Some tt)); reflexivity.
  - destruct (Nat.eqb pos 0); reflexivity.
  - rewrite <- (IH1 A B f pos s g (fun p t g' => exec r2 p t g' k)).
    apply exec_ext. intros p t g'. apply IH2.
Qed.

(** The start of a match apart, a pattern matches at an index as it does
    behind other patterns. *)
Lemma exec_match_at (r : regex) (start pos : nat) (s : str) :
  exec r pos s None (fun e _ g => Some (MatchObj start e g)) =
  option_map (fun m => MatchObj start (m_end m) (m_group1 m)) (match_at r pos s).
Proof.
  unfold match_at.
  rewrite <- (exec_map r _ _ (fun m => MatchObj start (m_end m) (m_group1 m))).
  reflexivity.
Qed.

Lemma search_from_skip (r : regex) (skipped : str) :
  forall pos t,
    (forall c s p, In c skipped -> match_at r p (c :: s) = None) ->
    search_from r pos (skipped ++ t) = search_from r (pos + length skipped) t.
Proof.
  induction skipped as [|c sk IH]; intros pos t H.
  - simpl. rewrite Nat.add_0_r. reflexivity.
  - cbn [app search_from]. rewrite H by (left; reflexivity).
    rewrite IH by (intros; apply H; right; assumption).
    f_equal. simpl. lia.
Qed.

Lemma search_from_hit (r : regex) (pos : nat) (s : str) (m : re_match_obj) :
  match_at r pos s = Some m -> search_from r pos s = Some m.
Proof. intros H. destruct s; simpl; rewrite H; reflexivity. Qed.

(** With a rest of the pattern that cannot fail, greedy repetition takes
    the longest run. *)
Lemma greedy_total {A : Type} (cls : char -> bool) (s : str) :
  forall pos (k : nat -> str -> option A),
    (forall p t, k p t <> None) ->
    greedy cls pos s k = k (pos + length (take_while cls s)) (drop_while cls s).
Proof.
  induction s as [|c s IH]; intros pos k K; simpl.
  - rewrite Nat.add_0_r. reflexivity.
  - destruct (cls c); simpl.
    + rewrite IH by exact K.
      replace (pos + S (length (take_while cls s)))
        with (S pos + length (take_while cls s)) by lia.
      destruct (k _ _) eqn:E; [reflexivity|]. exfalso. exact (K _ _ E).
    + rewrite Nat.add_0_r. reflexivity.
Qed.

(** Greedy repetition stops at the longest run when the rest of the
    pattern matches there. *)
Lemma greedy_longest {A : Type} (cls : char -> bool) (s : str) :
  forall pos (k : nat -> str -> option A) a,
    k (pos + length (take_while cls s)) (drop_while cls s) = Some a ->
    greedy cls pos s k = Some a.
Proof.
  induction s as [|c s IH]; intros pos k a H; simpl in *.
  - rewrite Nat.add_0_r in H. exact H.
  - destruct (cls c); simpl in H.
    + rewrite (IH (S pos) k a); [reflexivity|].
      rewrite <- H. f_equal. lia.
    + rewrite Nat.add_0_r in H. exact H.
Qed.

Lemma exec_seq {A : Type} (r1 r2 : regex) (pos : nat) (s : str) (g : option str)
    (k : nat -> str -> option str -> option A) :
  exec (r1 >> r2) pos s g k = exec r1 pos s g (fun p t g' => exec r2 p t g' k).
Proof. reflexivity. Qed.

Lemma exec_bol {A : Type} (s : str) (g : option str)
    (k : nat -> str -> option str -> option A) :
  exec Bol 0 s g k = k 0 s g.
Proof. reflexivity. Qed.

Lemma exec_chars_app {A : Type} (text z : str) (pos : nat) (g : option str)
    (k : nat -> str -> option str -> option A) :
  exec (Chars text) pos (text ++ z) g k = k (pos + length text) z g.
Proof. simpl. rewrite strip_prefix_app. reflexivity. Qed.

Lemma exec_star_longest {A : Type} (cls : char -> bool) (a z : str) (pos : nat)
    (g : option str) (k : nat -> str -> option str -> option A) (r : A) :
  forallb cls a = true -> take_while cls z = [] ->
  k (pos + length a) z g = Some r ->
  exec (Star cls) pos (a ++ z) g k = Some r.
Proof.
  intros F Z K. simpl. apply greedy_longest.
  rewrite take_while_app_stop, drop_while_app_stop by assumption. exact K.
Qed.

Lemma exec_plus_longest {A : Type} (cls : char -> bool) (a z : str) (pos : nat)
    (g : option str) (k : nat -> str -> option str -> option A) (r : A) :
  a <> [] -> forallb cls a = true -> take_while cls z = [] ->
  k (pos + length a) z g = Some r ->
  exec (Plus cls) pos (a ++ z) g k = Some r.
Proof.
  intros N F Z K. destruct a as [|c a]; [congruence|].
  simpl in F. apply andb_prop in F. destruct F as [Hc F].
  cbn [app exec]. rewrite Hc. apply greedy_longest.
  rewrite take_while_app_stop, drop_while_app_stop by assumption.
  rewrite <- K. f_equal. simpl. lia.
Qed.

Lemma exec_group_plus_longest {A : Type} (cls : char -> bool) (a z : str)
    (pos : nat) (g : option str) (k : nat -> str -> option str -> option A) (r : A) :
  a <> [] -> forallb cls a = true -> take_while cls z = [] ->
  k (pos + length a) z (Some a) = Some r ->
  exec (Group (Plus cls)) pos (a ++ z) g k = Some r.
Proof.
  intros N F Z K. cbn [exec].
  apply (exec_plus_longest cls a z pos g
           (fun p t _ => k p t (Some (firstn (p - pos) (a ++ z)))) r N F Z).
  replace (pos + length a - pos) with (length a) by lia.
  rewrite firstn_app, Nat.sub_diag, firstn_all. cbn [firstn].
  rewrite app_nil_r. exact K.
Qed.

Lemma sub_scan_skip (r : regex) (template : list repl_item) (s : str) :
  forall pos skip,
    skip <= length s ->
    sub_scan r template pos skip s =
    sub_scan r template (pos + skip) 0 (skipn skip s).
Proof.
  induction s as [|c s IH]; intros pos skip H.
  - destruct skip; [|simpl in H; lia]. rewrite Nat.add_0_r. reflexivity.
  - destruct skip as [|k].
    + rewrite Nat.add_0_r. reflexivity.
    + cbn [sub_scan skipn]. rewrite IH by (simpl in H; lia).
      f_equal. lia.
Qed.

Lemma sub_scan_hit (r : regex) (template : list repl_item) (pos n : nat)
    (s : str) (m : re_match_obj) :
  match_at r pos s = Some m ->
  m_end m - pos = S n ->
  S n <= length s ->
  sub_scan r template pos 0 s =
  expand template m ++ sub_scan r template (pos + S n) 0 (skipn (S n) s).
Proof.
  intros H E L. destruct s as [|c s]; [simpl in L; lia|].
  cbn [sub_scan]. rewrite H, E.
  rewrite sub_scan_skip by (simpl in L; lia).
  cbn [skipn]. do 2 f_equal. lia.
Qed.

(* ===================================================================== *)
(** * The patterns of the line fixers *)
(* ===================================================================== *)

Lemma newline_not_word_or_dot U : is_word_or_dot U nl = false.
Proof. reflexivity. Qed.

Lemma forallb_word_or_dot U (s : str) :
  forallb (is_word U) s = true -> forallb (is_word_or_dot U) s = true.
Proof.
  rewrite !forallb_forall. intros H c I. unfold is_word_or_dot.
  rewrite (H c I). reflexivity.
Qed.

(** The table found by [ON_TABLE]: a non-empty run of word characters and
    dots that follows ON and white space in the line. *)
Lemma on_table_group U (line : str) (m : re_match_obj) :
  re_search (ON_TABLE U) line = Some m ->
  exists before ws table after,
    m_group1 m = Some table /\ table <> [] /\
    forallb (is_word_or_dot U) table = true /\
    ws <> [] /\ forallb (is_space U) ws = true /\
    line = before ++ lit "ON" ++ ws ++ table ++ after.
Proof.
  intros H. apply re_search_sound in H.
  destruct H as (sk & pre & t & g & -> & M & ->).
  cbn [matches ON_TABLE] in M.
  destruct M as (p1 & p23 & g1 & -> & (-> & ->) & p2 & p3 & g2 & -> & M2 & M3).
  destruct M2 as (Hws & Fws & ->). destruct M3 as ((g0 & Ht & Ft & _) & ->).
  exists sk, p2, p3, t. cbn [m_group1]. rewrite <- !app_assoc. auto 10.
Qed.

(** The name found by [POLICY_NAME]: non-empty, without a double quote,
    between double quotes in the line. *)
Lemma policy_name_group U (line : str) (m : re_match_obj) :
  re_search (POLICY_NAME U) line = Some m ->
  exists before ws name after,
    m_group1 m = Some name /\ name <> [] /\
    forallb not_dquote name = true /\
    ws <> [] /\ forallb (is_space U) ws = true /\
    line = before ++ lit "CREATE POLICY" ++ ws ++ dquote :: name ++ dquote :: after.
Proof.
  intros H. apply re_search_sound in H.
  destruct H as (sk & pre & t & g & -> & M & ->).
  cbn [matches POLICY_NAME] in M.
  destruct M as (p1 & q1 & g1 & -> & (-> & ->) &
                 p2 & q2 & g2 & -> & (Hws & Fws & ->) &
                 p3 & q3 & g3 & -> & (-> & ->) &
                 p4 & p5 & g4 & -> & ((g0 & Hn & Fn & _) & ->) & (-> & ->)).
  exists sk, p2, p4, t. cbn [m_group1]. rewrite <- !app_assoc. auto 10.
Qed.

(** The name found by [TRIGGER_NAME]: a non-empty run of word characters. *)
Lemma trigger_name_group U (line : str) (m : re_match_obj) :
  re_search (TRIGGER_NAME U) line = Some m ->
  exists before ws name after,
    m_group1 m = Some name /\ name <> [] /\
    forallb (is_word U) name = true /\
    ws <> [] /\ forallb (is_space U) ws = true /\
    line = before ++ lit "CREATE TRIGGER" ++ ws ++ name ++ after.
Proof.
  intros H. apply re_search_sound in H.
  destruct H as (sk & pre & t & g & -> & M & ->).
  cbn [matches TRIGGER_NAME] in M.
  destruct M as (p1 & q1 & g1 & -> & (-> & ->) &
                 p2 & p3 & g2 & -> & (Hws & Fws & ->) &
                 ((g0 & Hn & Fn & _) & ->)).
  exists sk, p2, p3, t. cbn [m_group1]. rewrite <- !app_assoc. auto 10.
Qed.

Lemma window_table_found U (window : list str) (table : option str) :
  window_table U window = table ->
  table = None \/
  exists t line, table = Some t /\ t <> [] /\
                 forallb (is_word_or_dot U) t = true /\ In line window.
Proof.
  revert table; induction window as [|l w IH]; intros table H; simpl in H.
  - left. auto.
  - destruct (re_search (ON_TABLE U) l) as [m|] eqn:E.
    + right. apply on_table_group in E.
      destruct E as (b & ws & t & a & G & Ht & Ft & _).
      exists t, l. rewrite <- H, G. simpl. auto.
    + destruct (IH table H) as [->|(t & line & -> & Ht & Ft & I)]; [left; auto|].
      right. exists t, line. simpl. auto.
Qed.

(** [if table_name:] asks no more than whether a table was found: the
    group of [ON_TABLE] is never empty. *)
Lemma truthy_window_table U (window : list str) :
  truthy (window_table U window) =
  match window_table U window with Some _ => true | None => false end.
Proof.
  destruct (window_table_found U window _ eq_refl) as [E|(t & l & E & Ht & _)];
    rewrite E.
  - reflexivity.
  - destruct t; [congruence|reflexivity].
Qed.

Lemma is_space_not_C U (c : char) : is_space U c = true -> c <> letter_C.
Proof. intros H ->. discriminate H. Qed.

Lemma policy_name_not_at U (c : char) (s : str) (pos : nat) :
  c <> letter_C -> match_at (POLICY_NAME U) pos (c :: s) = None.
Proof.
  intros N. unfold match_at, POLICY_NAME.
  cbn [exec lit list_ascii_of_string map strip_prefix].
  unfold char_eqb. destruct (N.eqb_spec (N_of_ascii "C") c) as [E|_]; [|reflexivity].
  exfalso. apply N. rewrite <- E. reflexivity.
Qed.

Lemma policy_statement_shape U (line p : str) :
  policy_statement U line = Some p -> policy_line_shape U line p.
Proof.
  unfold policy_statement, re_match, match_at.
  destruct (exec (POLICY_LINE U) 0 line None _) as [m0|] eqn:M; [|discriminate].
  unfold POLICY_LINE in M. cbn [exec Nat.eqb] in M.
  apply greedy_inv in M. destruct M as (ws & t & -> & Fws & M).
  change (exec (POLICY_NAME U) (0 + length ws) t None
            (fun e _ g => Some (MatchObj 0 e g)) = Some m0) in M.
  rewrite exec_match_at in M.
  destruct (match_at (POLICY_NAME U) (0 + length ws) t) as [m|] eqn:Mt;
    [|discriminate].
  unfold re_search. rewrite search_from_skip.
  - rewrite (search_from_hit _ _ _ _ Mt).
    apply match_at_sound in Mt. destruct Mt as (pre & after & g & -> & Mm & ->).
    cbn [m_group1].
    cbn [matches POLICY_NAME] in Mm.
    destruct Mm as (p1 & q1 & g1 & -> & (-> & ->) &
                    p2 & q2 & g2 & -> & (Hws & Fws' & ->) &
                    p3 & q3 & g3 & -> & (-> & ->) &
                    p4 & p5 & g4 & -> & ((g0 & Hn & Fn & _) & ->) & (-> & ->)).
    intros [= <-].
    exists ws, p2, after. unfold quoted. rewrite <- !app_assoc. cbn [app].
    rewrite <- !app_assoc. auto 10.
  - intros c s p0 I. apply policy_name_not_at, (is_space_not_C U).
    rewrite forallb_forall in Fws. apply Fws. exact I.
Qed.

Lemma take_while_space_dquote U (z : str) :
  take_while (is_space U) (dquote :: z) = [].
Proof. reflexivity. Qed.

Lemma take_while_not_dquote (z : str) : take_while not_dquote (dquote :: z) = [].
Proof. reflexivity. Qed.

(** [POLICY_NAME] tried where a statement begins. *)
Lemma policy_name_at_statement U (pos : nat) (ws' p after : str)
    (A : Type) (k : nat -> str -> option str -> option A) (r : A) :
  ws' <> [] -> forallb (is_space U) ws' = true ->
  p <> [] -> forallb not_dquote p = true ->
  k (pos + length (lit "CREATE POLICY") + length ws' + 1 + length p + 1)
    after (Some p) = Some r ->
  exec (POLICY_NAME U) pos (lit "CREATE POLICY" ++ ws' ++ quoted p ++ after) None k =
  Some r.
Proof.
  intros Nw Fw Np Fp K. unfold POLICY_NAME, quoted.
  replace ((dquote :: p ++ [dquote]) ++ after)
    with ([dquote] ++ p ++ [dquote] ++ after)
    by (cbn [app]; rewrite <- app_assoc; reflexivity).
  rewrite exec_seq, exec_chars_app. cbv beta.
  rewrite exec_seq.
  apply exec_plus_longest; [exact Nw|exact Fw|apply take_while_space_dquote|].
  rewrite exec_seq, exec_chars_app. cbv beta.
  rewrite exec_seq.
  apply exec_group_plus_longest;
    [exact Np|exact Fp|apply take_while_not_dquote|].
  rewrite exec_chars_app. exact K.
Qed.

Lemma take_while_space_C U (z : str) :
  take_while (is_space U) (lit "CREATE POLICY" ++ z) = [].
Proof. reflexivity. Qed.

(** A line of that shape is a statement for the fixer, of that name. *)
Lemma policy_statement_complete U (line p : str) :
  policy_line_shape U line p -> policy_statement U line = Some p.
Proof.
  intros (ws & ws' & after & -> & Fws & Nw & Fw & Np & Fp).
  unfold policy_statement.
  assert (M : exists m, re_match (POLICY_LINE U)
                (ws ++ lit "CREATE POLICY" ++ ws' ++ quoted p ++ after) = Some m).
  { eexists. unfold re_match, match_at, POLICY_LINE.
    rewrite exec_seq, exec_bol. cbv beta. rewrite exec_seq.
    apply exec_star_longest; [exact Fws|apply take_while_space_C|].
    apply (policy_name_at_statement U); auto. }
  destruct M as (m & ->).
  unfold re_search. rewrite search_from_skip.
  - rewrite (search_from_hit (POLICY_NAME U) _ _
               (MatchObj (0 + length ws)
                  (0 + length ws + length (lit "CREATE POLICY") + length ws' + 1 +
                   length p + 1) (Some p))); [reflexivity|].
    unfold match_at. apply (policy_name_at_statement U); auto.
  - intros c s p0 I. apply policy_name_not_at, (is_space_not_C U).
    rewrite forallb_forall in Fws. apply Fws. exact I.
Qed.

(** X17.  The lines that the policy fixer takes for CREATE POLICY
    statements of name [p] are exactly those made of white space (or none),
    CREATE POLICY, white space and the name between double quotes, where
    the name is not empty and holds no double quote: the statement begins
    the line, apart from indentation, and a name that is not quoted is no
    statement for the fixer. *)
Lemma policy_statement_iff U (line p : str) :
  policy_statement U line = Some p <-> policy_line_shape U line p.
Proof.
  split; [apply policy_statement_shape|apply policy_statement_complete].
Qed.


(* ===================================================================== *)
(** * The loops of the line fixers as scans *)
(* ===================================================================== *)

Lemma seq_first_table U (lines : list str) (n i : nat) :
  i + n <= length lines ->
  first_table U lines (seq i n) = window_table U (firstn n (skipn i lines)).
Proof.
  revert i; induction n as [|n IH]; intros i H; simpl.
  - reflexivity.
  - rewrite (@skipn_nth_cons str [] lines) by lia. simpl.
    destruct (re_search (ON_TABLE U) (nth i lines [])); [reflexivity|].
    apply IH. lia.
Qed.

Lemma lookahead_window U (lines : list str) (i : nat) :
  i <= length lines ->
  lookahead U lines i = window_table U (firstn 5 (skipn i lines)).
Proof.
  intros H. unfold lookahead, py_range.
  rewrite seq_first_table by lia.
  destruct (Nat.le_gt_cases (i + 5) (length lines)) as [L|L].
  - replace (Nat.min (i + 5) (length lines) - i) with 5 by lia. reflexivity.
  - replace (Nat.min (i + 5) (length lines) - i) with (length (skipn i lines))
      by (rewrite length_skipn; lia).
    rewrite firstn_all.
    rewrite firstn_all2; [reflexivity|]. rewrite length_skipn. lia.
Qed.

Lemma first_table_Some U (lines : list str) (t : str) (n : nat) :
  forall i,
    first_table U lines (seq i n) = Some t <->
    exists j m,
      i <= j < i + n /\
      (forall j', i <= j' < j -> re_search (ON_TABLE U) (nth j' lines []) = None) /\
      re_search (ON_TABLE U) (nth j lines []) = Some m /\
      m_group1 m = Some t.
Proof.
  induction n as [|n IH]; intros i; cbn [seq first_table].
  - split; [discriminate|]. intros (j & m & H & _). lia.
  - destruct (re_search (ON_TABLE U) (nth i lines [])) as [m|] eqn:E.
    + split.
      * intros G. exists i, m. repeat split; auto; lia.
      * intros (j & m' & Hj & Hb & Hs & G).
        destruct (Nat.eq_dec j i) as [->|N]; [congruence|].
        rewrite (Hb i) in E by lia. discriminate.
    + rewrite IH. split.
      * intros (j & m & Hj & Hb & Hs & G). exists j, m.
        repeat split; auto; try lia. intros j' H.
        destruct (Nat.eq_dec j' i) as [->|N]; [exact E|]. apply Hb. lia.
      * intros (j & m & Hj & Hb & Hs & G).
        destruct (Nat.eq_dec j i) as [->|N]; [congruence|].
        exists j, m. repeat split; auto; try lia. intros j' H. apply Hb. lia.
Qed.

Lemma first_table_None U (lines : list str) (n : nat) :
  forall i,
    first_table U lines (seq i n) = None <->
    forall j, i <= j < i + n -> re_search (ON_TABLE U) (nth j lines []) = None.
Proof.
  induction n as [|n IH]; intros i; cbn [seq first_table].
  - split; [intros _ j H; lia|reflexivity].
  - destruct (re_search (ON_TABLE U) (nth i lines [])) as [m|] eqn:E.
    + destruct (on_table_group U _ _ E) as (b & ws & t & a & G & _).
      rewrite G. split; [discriminate|]. intros H.
      rewrite (H i) in E by lia. discriminate.
    + rewrite IH. split; intros H j Hj.
      * destruct (Nat.eq_dec j i) as [->|N]; [exact E|]. apply H. lia.
      * apply H. lia.
Qed.

(** The lookahead of the loop finds the table of the first ON clause of
    the window, and nothing when the window has none. *)
Lemma lookahead_first_on_clause U (lines : list str) (i : nat) (t : str) :
  i <= length lines ->
  (lookahead U lines i = Some t <-> first_on_clause U lines i t).
Proof.
  intros H. unfold lookahead, py_range, first_on_clause.
  rewrite first_table_Some.
  replace (i + (Nat.min (i + 5) (length lines) - i))
    with (Nat.min (i + 5) (length lines)) by lia.
  reflexivity.
Qed.

Lemma lookahead_no_on_clause U (lines : list str) (i : nat) :
  i <= length lines ->
  (lookahead U lines i = None <-> no_on_clause U lines i).
Proof.
  intros H. unfold lookahead, py_range, no_on_clause.
  rewrite first_table_None.
  replace (i + (Nat.min (i + 5) (length lines) - i))
    with (Nat.min (i + 5) (length lines)) by lia.
  reflexivity.
Qed.

Lemma policy_drop_line_rule U (name table : option str) :
  policy_drop_line name table = rule_drop_line (POLICY_RULE U) name table.
Proof.
  unfold policy_drop_line, rule_drop_line. cbn [rule_drop_text POLICY_RULE].
  unfold policy_drop_text. rewrite <- !app_assoc. cbn [app].
  rewrite <- !app_assoc. reflexivity.
Qed.

Lemma trigger_drop_line_rule U (name table : option str) :
  trigger_drop_line name table = rule_drop_line (TRIGGER_RULE U) name table.
Proof.
  unfold trigger_drop_line, rule_drop_line. cbn [rule_drop_text TRIGGER_RULE].
  unfold trigger_drop_text. rewrite <- !app_assoc. reflexivity.
Qed.

Lemma policy_body_guard U (lines : list str) (i : nat) (fixed_lines : list str) :
  i < length lines ->
  policy_body U lines i fixed_lines =
  fixed_lines ++
  guard_for U (POLICY_RULE U) (prev_line lines i) (nth i lines [])
    (firstn 5 (skipn i lines)) ++ [nth i lines []].
Proof.
  intros H. unfold policy_body, guard_for, prev_line.
  rewrite lookahead_window by lia.
  generalize (window_table U (firstn 5 (skipn i lines))); intros table.
  cbn [rule_line rule_name rule_drop_text POLICY_RULE].
  destruct (re_match (POLICY_LINE U) (nth i lines [])); [|reflexivity].
  destruct (re_search (POLICY_NAME U) (nth i lines [])) as [m|]; [|reflexivity].
  destruct (truthy table); [|reflexivity].
  destruct (0 <? i).
  - destruct (contains _ _); cbn [negb]; [reflexivity|].
    rewrite <- app_assoc, (policy_drop_line_rule U). reflexivity.
  - cbn [negb]. rewrite <- app_assoc, (policy_drop_line_rule U). reflexivity.
Qed.

Lemma prev_line_S (lines : list str) (i : nat) :
  prev_line lines (S i) = Some (nth i lines []).
Proof. unfold prev_line. cbn. rewrite Nat.sub_0_r. reflexivity. Qed.

Lemma scan_skipn U (R : guard_rule) (prev : option str) (lines : list str) (i : nat) :
  i < length lines ->
  scan U R prev (skipn i lines) =
  guard_for U R prev (nth i lines []) (firstn 5 (skipn i lines)) ++
  nth i lines [] :: scan U R (prev_line lines (S i)) (skipn (S i) lines).
Proof.
  intros H. rewrite prev_line_S.
  assert (E := @skipn_nth_cons str [] lines i H).
  destruct (skipn i lines) as [|a t]; [discriminate|].
  injection E as -> ->. reflexivity.
Qed.

Lemma policy_loop_scan U (lines : list str) (n i : nat) (fixed_lines : list str) :
  length lines - i = n -> i <= length lines ->
  policy_loop U lines i fixed_lines =
  fixed_lines ++ scan U (POLICY_RULE U) (prev_line lines i) (skipn i lines).
Proof.
  revert i fixed_lines; induction n as [|n IH]; intros i acc Hn Hi;
    rewrite policy_loop_equation_1;
    destruct (lt_dec i (length lines)); try lia;
    cbn [policy_loop_unfold_clause_1].
  - rewrite skipn_all2 by lia. cbn [scan]. rewrite app_nil_r. reflexivity.
  - rewrite IH by lia. rewrite policy_body_guard by lia.
    rewrite (scan_skipn U (POLICY_RULE U) (prev_line lines i) lines) by lia.
    rewrite <- !app_assoc. reflexivity.
Qed.

Lemma trigger_body_guard U (lines : list str) (i : nat) (fixed_lines : list str) :
  i < length lines ->
  trigger_body U lines i fixed_lines =
  fixed_lines ++
  guard_for U (TRIGGER_RULE U) (prev_line lines i) (nth i lines [])
    (firstn 5 (skipn i lines)) ++ [nth i lines []].
Proof.
  intros H. unfold trigger_body, guard_for, prev_line.
  rewrite lookahead_window by lia.
  generalize (window_table U (firstn 5 (skipn i lines))); intros table.
  cbn [rule_line rule_name rule_drop_text TRIGGER_RULE].
  destruct (re_match (TRIGGER_LINE U) (nth i lines [])); [|reflexivity].
  destruct (re_search (TRIGGER_NAME U) (nth i lines [])) as [m|]; [|reflexivity].
  destruct (truthy table); [|reflexivity].
  destruct (0 <? i).
  - destruct (contains _ _); cbn [negb]; [reflexivity|].
    rewrite <- app_assoc, (trigger_drop_line_rule U). reflexivity.
  - cbn [negb]. rewrite <- app_assoc, (trigger_drop_line_rule U). reflexivity.
Qed.

Lemma trigger_loop_scan U (lines : list str) (n i : nat) (fixed_lines : list str) :
  length lines - i = n -> i <= length lines ->
  trigger_loop U lines i fixed_lines =
  fixed_lines ++ scan U (TRIGGER_RULE U) (prev_line lines i) (skipn i lines).
Proof.
  revert i fixed_lines; induction n as [|n IH]; intros i acc Hn Hi;
    rewrite trigger_loop_equation_1;
    destruct (lt_dec i (length lines)); try lia;
    cbn [trigger_loop_unfold_clause_1].
  - rewrite skipn_all2 by lia. cbn [scan]. rewrite app_nil_r. reflexivity.
  - rewrite IH by lia. rewrite trigger_body_guard by lia.
    rewrite (scan_skipn U (TRIGGER_RULE U) (prev_line lines i) lines) by lia.
    rewrite <- !app_assoc. reflexivity.
Qed.

Lemma fix_create_policy_scan U (content : str) :
  fix_create_policy U content = line_fixer U (POLICY_RULE U) content.
Proof.
  unfold fix_create_policy, line_fixer.
  rewrite (policy_loop_scan U (split nl content) (length (split nl content)) 0 [])
    by lia.
  reflexivity.
Qed.

Lemma fix_create_trigger_scan U (content : str) :
  fix_create_trigger U content = line_fixer U (TRIGGER_RULE U) content.
Proof.
  unfold fix_create_trigger, line_fixer.
  rewrite (trigger_loop_scan U (split nl content) (length (split nl content)) 0 [])
    by lia.
  reflexivity.
Qed.

(** C7.  The trigger fixer is the algorithm of the policy fixer: both are
    the procedure [line_fixer] (scan the lines; for a line holding the
    statement look for the table in the five-line window, check the line
    before for the guard text, insert the guard), run with a rule that
    fixes only the two patterns of the statement and the text of the
    guard. *)
Theorem line_fixers_share_algorithm U (content : str) :
  fix_create_policy U content = line_fixer U (POLICY_RULE U) content /\
  fix_create_trigger U content = line_fixer U (TRIGGER_RULE U) content /\
  (forall name table,
     rule_drop_line (POLICY_RULE U) name table = policy_drop_line name table /\
     rule_drop_line (TRIGGER_RULE U) name table = trigger_drop_line name table).
Proof.
  unfold fix_create_policy, fix_create_trigger, line_fixer.
  split; [|split; [|intros name table; split]].
  - rewrite (policy_loop_scan U (split nl content) (length (split nl content)) 0 [])
      by lia.
    reflexivity.
  - rewrite (trigger_loop_scan U (split nl content) (length (split nl content)) 0 [])
      by lia.
    reflexivity.
  - symmetry. apply policy_drop_line_rule.
  - symmetry. apply trigger_drop_line_rule.
Qed.

(* ===================================================================== *)
(** * The two rules *)
(* ===================================================================== *)

Lemma policy_rule_wf U : rule_wf U (POLICY_RULE U).
Proof.
  constructor; cbn [rule_name rule_line rule_drop_text POLICY_RULE].
  - intros line m H. apply policy_name_group in H.
    destruct H as (b & ws & name & a & G & Hn & _ & _ & _ & ->).
    exists name. repeat split; auto.
    intros L. apply (one_line_part (b ++ lit "CREATE POLICY" ++ ws ++ [dquote]) name
                       (dquote :: a)).
    rewrite <- !app_assoc. exact L.
  - intros name H. unfold policy_drop_text, one_line. cbn.
    intros I. repeat (destruct I as [I|I]; [discriminate I|]).
    apply in_app_or in I. destruct I as [I|I]; [contradiction|].
    destruct I as [I|[]]. discriminate I.
  - intros name table. reflexivity.
Qed.

Lemma trigger_rule_wf U : rule_wf U (TRIGGER_RULE U).
Proof.
  constructor; cbn [rule_name rule_line rule_drop_text TRIGGER_RULE].
  - intros line m H. apply trigger_name_group in H.
    destruct H as (b & ws & name & a & G & Hn & _ & _ & _ & ->).
    exists name. repeat split; auto.
    intros L. apply (one_line_part (b ++ lit "CREATE TRIGGER" ++ ws) name a).
    rewrite <- !app_assoc. exact L.
  - intros name H. unfold trigger_drop_text, one_line. cbn.
    intros I. repeat (destruct I as [I|I]; [discriminate I|]). contradiction.
  - intros name table. reflexivity.
Qed.

(* ===================================================================== *)
(** * The scan of a rule *)
(* ===================================================================== *)

Lemma guard_for_spec U (R : guard_rule) (prev : option str) (line : str)
    (window : list str) :
  rule_wf U R ->
  guard_for U R prev line window =
  match statement_name R line, window_table U window with
  | Some name, Some t =>
      if has_text (rule_drop_text R (Some name)) prev then []
      else [rule_drop_line R (Some name) (Some t)]
  | _, _ => []
  end.
Proof.
  intros W. unfold guard_for, statement_name.
  destruct (re_match (rule_line R) line); [|reflexivity].
  destruct (re_search (rule_name R) line) as [m|] eqn:E; [|reflexivity].
  destruct (wf_name W _ _ E) as (name & -> & _).
  rewrite truthy_window_table.
  destruct (window_table U window); reflexivity.
Qed.

Lemma guard_for_nil_or_one U (R : guard_rule) prev line window :
  rule_wf U R ->
  guard_for U R prev line window = [] \/
  exists name t,
    statement_name R line = Some name /\ window_table U window = Some t /\
    has_text (rule_drop_text R (Some name)) prev = false /\
    guard_for U R prev line window = [rule_drop_line R (Some name) (Some t)].
Proof.
  intros W. rewrite (guard_for_spec U R prev line window W).
  destruct (statement_name R line) as [name|]; [|auto].
  destruct (window_table U window) as [t|]; [|auto].
  destruct (has_text _ prev) eqn:E; [auto|].
  right. exists name, t. auto.
Qed.

Lemma statement_name_one_line U (R : guard_rule) (line name : str) :
  rule_wf U R -> statement_name R line = Some name ->
  one_line line -> one_line name.
Proof.
  intros W. unfold statement_name.
  destruct (re_match (rule_line R) line); [|discriminate].
  destruct (re_search (rule_name R) line) as [m|] eqn:E; [|discriminate].
  destruct (wf_name W _ _ E) as (name' & -> & _ & L). intros [= ->]. exact L.
Qed.

Lemma window_table_one_line U (window : list str) (t : str) :
  window_table U window = Some t -> one_line t.
Proof.
  intros H. destruct (window_table_found U window _ H) as [E|(t' & l & E & _ & F & _)].
  - discriminate.
  - injection E as <-. apply (forallb_not_In (is_word_or_dot U)); auto.
Qed.

Lemma drop_line_one_line U (R : guard_rule) (name t : str) :
  rule_wf U R -> one_line name -> one_line t ->
  one_line (rule_drop_line R (Some name) (Some t)).
Proof.
  intros W Hn Ht. unfold rule_drop_line. cbn [fmt].
  repeat apply one_line_app; auto using one_line_lit_ON, one_line_lit_semicolon.
  apply (wf_text W _ Hn).
Qed.

Lemma guard_for_one_line U (R : guard_rule) prev line window :
  rule_wf U R -> one_line line ->
  Forall one_line (guard_for U R prev line window).
Proof.
  intros W L.
  destruct (guard_for_nil_or_one U R prev line window W)
    as [->|(name & t & Hn & Ht & _ & ->)]; constructor; [|constructor].
  apply (drop_line_one_line U); auto.
  - eapply statement_name_one_line; eauto.
  - eapply window_table_one_line; eauto.
Qed.

Lemma scan_one_line U (R : guard_rule) (lines : list str) :
  rule_wf U R -> Forall one_line lines ->
  forall prev, Forall one_line (scan U R prev lines).
Proof.
  intros W. induction 1 as [|l ls Hl Hls IH]; intros prev; cbn [scan].
  - constructor.
  - apply Forall_app. split; [apply guard_for_one_line; auto|].
    constructor; auto.
Qed.

Lemma scan_not_nil U (R : guard_rule) prev (lines : list str) :
  lines <> [] -> scan U R prev lines <> [].
Proof.
  destruct lines as [|l ls]; [congruence|]. intros _. cbn [scan].
  destruct (guard_for U R prev l (firstn 5 (l :: ls))); discriminate.
Qed.

(** The lines of the output of a line fixer are the lines that its scan
    produced. *)
Lemma split_line_fixer U (R : guard_rule) (content : str) :
  rule_wf U R ->
  split nl (line_fixer U R content) = scan U R None (split nl content).
Proof.
  intros W. unfold line_fixer. apply split_join.
  - apply scan_not_nil, split_not_nil.
  - apply scan_one_line; [exact W|apply split_one_line].
Qed.

Lemma scan_interleaved U (R : guard_rule) (lines : list str) :
  rule_wf U R ->
  forall prev, Interleaved (guard_line_of R) lines (scan U R prev lines).
Proof.
  intros W. induction lines as [|l ls IH]; intros prev; cbn [scan].
  - constructor.
  - destruct (guard_for_nil_or_one U R prev l (firstn 5 (l :: ls)) W)
      as [->|(name & t & _ & _ & _ & ->)]; cbn [app].
    + constructor. apply IH.
    + apply Interleaved_insert; [exists name, t; reflexivity|].
      constructor. apply IH.
Qed.

Lemma Interleaved_impl (P Q : str -> Prop) (xs ys : list str) :
  (forall g, P g -> Q g) -> Interleaved P xs ys -> Interleaved Q xs ys.
Proof. intros PQ. induction 1; constructor; auto. Qed.

(** C6.  The lines of the output of the policy fixer, and of the trigger
    fixer, are the lines of the input, each of them kept as it is and in the
    order of the input, with guard lines inserted between them. *)
Theorem line_fixers_keep_lines U (content : str) :
  Interleaved policy_guard_line
    (split nl content) (split nl (fix_create_policy U content)) /\
  Interleaved trigger_guard_line
    (split nl content) (split nl (fix_create_trigger U content)).
Proof.
  split.
  - rewrite fix_create_policy_scan, split_line_fixer by apply policy_rule_wf.
    apply Interleaved_impl with (P := guard_line_of (POLICY_RULE U)).
    + intros g (name & table & ->). exists name, table.
      symmetry. apply policy_drop_line_rule.
    + apply scan_interleaved, policy_rule_wf.
  - rewrite fix_create_trigger_scan, split_line_fixer by apply trigger_rule_wf.
    apply Interleaved_impl with (P := guard_line_of (TRIGGER_RULE U)).
    + intros g (name & table & ->). exists name, table.
      symmetry. apply trigger_drop_line_rule.
    + apply scan_interleaved, trigger_rule_wf.
Qed.

(* ===================================================================== *)
(** * Running a scan on its own output *)
(* ===================================================================== *)

Lemma contains_drop_text (R : guard_rule) (name table : option str) :
  contains (rule_drop_text R name) (rule_drop_line R name table) = true.
Proof. apply contains_prefix. Qed.

Lemma statement_name_guard U (R : guard_rule) (name table : option str) :
  rule_wf U R -> statement_name R (rule_drop_line R name table) = None.
Proof.
  intros W. unfold statement_name. rewrite (wf_guard W). reflexivity.
Qed.

Lemma all_tabled_tail U (R : guard_rule) (l : str) (ls : list str) :
  all_tabled U R (l :: ls) -> all_tabled U R ls.
Proof.
  intros H before line after name E. apply (H (l :: before)). rewrite E.
  reflexivity.
Qed.

Lemma scan_idempotent U (R : guard_rule) (lines : list str) :
  rule_wf U R -> all_tabled U R lines ->
  forall prev, scan U R prev (scan U R prev lines) = scan U R prev lines.
Proof.
  intros W. induction lines as [|l ls IH]; intros T prev; [reflexivity|].
  assert (IH' := IH (all_tabled_tail U R l ls T) (Some l)).
  cbn [scan].
  rewrite (guard_for_spec U R prev l (firstn 5 (l :: ls)) W).
  destruct (statement_name R l) as [name|] eqn:Hn.
  - destruct (window_table U (firstn 5 (l :: ls))) as [t|] eqn:Ht;
      [|exfalso; exact (T [] l ls name eq_refl Hn Ht)].
    destruct (has_text (rule_drop_text R (Some name)) prev) eqn:Hp; cbn [app scan].
    + rewrite (guard_for_spec U R prev l _ W), Hn, Hp, IH'.
      destruct (window_table U (firstn 5 (l :: scan U R (Some l) ls)));
        reflexivity.
    + rewrite (guard_for_spec U R prev _ _ W), (statement_name_guard U R _ _ W).
      rewrite (guard_for_spec U R _ l _ W), Hn. cbn [has_text].
      rewrite contains_drop_text, IH'.
      destruct (window_table U (firstn 5 (l :: scan U R (Some l) ls)));
        reflexivity.
  - cbn [app scan]. rewrite (guard_for_spec U R prev l _ W), Hn, IH'. reflexivity.
Qed.

Lemma line_fixer_idempotent U (R : guard_rule) (content : str) :
  rule_wf U R -> all_tabled U R (split nl content) ->
  line_fixer U R (line_fixer U R content) = line_fixer U R content.
Proof.
  intros W T. unfold line_fixer at 1. rewrite (split_line_fixer U R content W).
  rewrite (scan_idempotent U R _ W T). reflexivity.
Qed.

(* ===================================================================== *)
(** * The policy fixer, turn by turn *)
(* ===================================================================== *)

Lemma policy_state_S U (lines : list str) (i : nat) :
  policy_state U lines (S i) = policy_body U lines i (policy_state U lines i).
Proof.
  unfold policy_state, py_range. rewrite !Nat.sub_0_r, seq_S, fold_left_app.
  reflexivity.
Qed.

Lemma policy_loop_acc U (lines : list str) (i : nat) (fixed_lines : list str) :
  i <= length lines ->
  policy_loop U lines i fixed_lines = fixed_lines ++ policy_loop U lines i [].
Proof.
  intros H.
  rewrite (policy_loop_scan U lines (length lines - i) i fixed_lines) by lia.
  rewrite (policy_loop_scan U lines (length lines - i) i []) by lia.
  reflexivity.
Qed.

Lemma policy_loop_step U (lines : list str) (i : nat) (fixed_lines : list str) :
  i < length lines ->
  policy_loop U lines i fixed_lines =
  policy_loop U lines (S i) (policy_body U lines i fixed_lines).
Proof.
  intros H. rewrite policy_loop_equation_1.
  destruct (lt_dec i (length lines)); [reflexivity|lia].
Qed.

Lemma policy_loop_end U (lines : list str) (i : nat) (fixed_lines : list str) :
  length lines <= i -> policy_loop U lines i fixed_lines = fixed_lines.
Proof.
  intros H. rewrite policy_loop_equation_1.
  destruct (lt_dec i (length lines)); [lia|reflexivity].
Qed.

(** The loop goes through the states [policy_state] and returns the last. *)
Lemma policy_state_loop U (lines : list str) (i : nat) :
  i <= length lines ->
  policy_loop U lines 0 [] = policy_state U lines i ++ policy_loop U lines i [].
Proof.
  induction i as [|i IH]; intros H.
  - reflexivity.
  - rewrite IH by lia. rewrite <- policy_loop_acc by lia.
    rewrite policy_loop_step by lia. rewrite <- policy_state_S.
    apply policy_loop_acc. lia.
Qed.

Lemma policy_statement_rule U (line : str) :
  policy_statement U line = statement_name (POLICY_RULE U) line.
Proof. reflexivity. Qed.

(** One turn of the loop, by cases. *)
Lemma policy_body_spec U (lines : list str) (i : nat) (fixed_lines : list str) :
  i < length lines ->
  policy_body U lines i fixed_lines =
  fixed_lines ++
  match policy_statement U (nth i lines []), lookahead U lines i with
  | Some p, Some t =>
      if has_text (policy_drop_text (Some p)) (prev_line lines i) then []
      else [policy_drop_line (Some p) (Some t)]
  | _, _ => []
  end ++ [nth i lines []].
Proof.
  intros H. rewrite policy_body_guard by exact H.
  rewrite (guard_for_spec U _ _ _ _ (policy_rule_wf U)).
  rewrite <- lookahead_window by lia. rewrite <- policy_statement_rule.
  destruct (policy_statement U (nth i lines [])) as [p|]; [|reflexivity].
  destruct (lookahead U lines i) as [t|]; [|reflexivity].
  cbn [rule_drop_text POLICY_RULE]. rewrite <- (policy_drop_line_rule U).
  reflexivity.
Qed.

(** The output line before turn [i] is the input line before index [i]. *)
Lemma last_line_policy_state U (lines : list str) (i : nat) :
  i <= length lines ->
  last_line (policy_state U lines i) = prev_line lines i.
Proof.
  destruct i as [|i]; intros H.
  - reflexivity.
  - rewrite policy_state_S, policy_body_spec, prev_line_S by lia.
    rewrite app_assoc. apply last_line_app.
Qed.

(** The whole output, cut at turn [i]. *)
Lemma policy_output_at U (lines : list str) (i : nat) :
  i < length lines ->
  policy_loop U lines 0 [] =
  policy_body U lines i (policy_state U lines i) ++ policy_loop U lines (S i) [].
Proof.
  intros H. rewrite (policy_state_loop U lines (S i)) by lia.
  rewrite policy_state_S. reflexivity.
Qed.

Lemma has_text_guard (text : str) (prev : option str) (g : str) :
  has_text text prev = false -> contains text g = true -> prev <> Some g.
Proof. intros H C E. subst prev. simpl in H. congruence. Qed.

Lemma policy_drop_line_contains (name table : option str) :
  contains (policy_drop_text name) (policy_drop_line name table) = true.
Proof.
  unfold policy_drop_line.
  replace (lit "DROP POLICY IF EXISTS " ++ dquote :: fmt name ++ [dquote] ++
           lit " ON " ++ fmt table ++ lit ";")
    with (policy_drop_text name ++ lit " ON " ++ fmt table ++ lit ";").
  - apply contains_prefix.
  - unfold policy_drop_text. rewrite <- !app_assoc. cbn [app].
    rewrite <- !app_assoc. reflexivity.
Qed.

(** C1, amended.  Take a line of the input that is a CREATE POLICY statement
    of name [p] and whose five-line window has a first ON clause, of table
    [t].  If the line before it in the input does not contain the text
    DROP POLICY IF EXISTS <dq>p<dq>, the output has the guard line of [p] on
    [t] right before the statement, once: the line before that guard is not
    the guard.  If the line before it contains that text, nothing is
    inserted and that line stays right before the statement. *)
Theorem policy_guard_before_statement U (content : str) (i : nat) (p t : str) :
  i < length (split nl content) ->
  policy_line_shape U (nth i (split nl content) []) p ->
  first_on_clause U (split nl content) i t ->
  let lines := split nl content in
  let before := policy_state U lines i in
  let guard := policy_drop_line (Some p) (Some t) in
  let rest := nth i lines [] :: policy_loop U lines (S i) [] in
  if has_text (policy_drop_text (Some p)) (prev_line lines i)
  then fix_create_policy U content = join nl (before ++ rest) /\
       exists prev, last_line before = Some prev /\
                    contains (policy_drop_text (Some p)) prev = true
  else fix_create_policy U content = join nl (before ++ guard :: rest) /\
       last_line before <> Some guard.
Proof.
  intros Hi Hp Ht lines before guard rest.
  apply policy_statement_complete in Hp.
  apply lookahead_first_on_clause in Ht; [|lia].
  unfold fix_create_policy. fold lines.
  rewrite (policy_output_at U lines i Hi), (policy_body_spec U lines i _ Hi).
  fold lines in Hp, Ht. rewrite Hp, Ht. fold before.
  assert (L : last_line before = prev_line lines i)
    by (apply last_line_policy_state; unfold lines; lia).
  destruct (has_text (policy_drop_text (Some p)) (prev_line lines i)) eqn:E.
  - split; [rewrite <- !app_assoc; reflexivity|].
    rewrite L. destruct (prev_line lines i) as [prev|]; [|discriminate].
    exists prev. auto.
  - split; [rewrite <- !app_assoc; reflexivity|].
    rewrite L. apply (has_text_guard _ _ _ E), policy_drop_line_contains.
Qed.

(** C1 as stated fails: in [other_drop_example] the second line is a
    CREATE POLICY statement of name p with the table t on the line itself,
    the fixer returns the input as it is, and the line before the statement
    drops the policy on the table old, not on t. *)
Lemma policy_guard_absent_after_other_drop :
  let lines := split nl other_drop_example in
  policy_line_shape ascii_only (nth 1 lines []) (lit "p") /\
  first_on_clause ascii_only lines 1 (lit "t") /\
  fix_create_policy ascii_only other_drop_example = other_drop_example /\
  ~ guard_precedes ascii_only lines 1 (lit "p") (lit "t").
Proof.
  cbv zeta. split; [|split; [|split]].
  - apply policy_statement_shape. vm_compute. reflexivity.
  - apply lookahead_first_on_clause; [vm_compute; lia|vm_compute; reflexivity].
  - vm_compute. reflexivity.
  - intros [front H]. vm_compute in H.
    destruct front as [|a [|b front]]; try discriminate H.
    injection H as _ _ H. destruct front; discriminate H.
Qed.

Lemma policy_guard_before_statement_witness :
  fix_create_policy ascii_only read_own_example =
  join nl [ lit "DROP POLICY IF EXISTS " ++ quoted (lit "read_own") ++
              lit " ON profiles;";
            lit "CREATE POLICY " ++ quoted (lit "read_own") ++ lit " ON profiles";
            lit "FOR SELECT USING (...);" ].
Proof.
  assert (H := policy_guard_before_statement ascii_only read_own_example 0
                 (lit "read_own") (lit "profiles")).
  cbv zeta in H.
  assert (H1 : 0 < length (split nl read_own_example))
    by (apply Nat.ltb_lt; vm_compute; reflexivity).
  assert (H2 : policy_line_shape ascii_only (nth 0 (split nl read_own_example) [])
                 (lit "read_own"))
    by (apply policy_statement_shape; vm_compute; reflexivity).
  assert (H3 : first_on_clause ascii_only (split nl read_own_example) 0
                 (lit "profiles"))
    by (apply lookahead_first_on_clause; [apply Nat.le_0_l|vm_compute; reflexivity]).
  specialize (H H1 H2 H3).
  change (has_text (policy_drop_text (Some (lit "read_own")))
            (prev_line (split nl read_own_example) 0)) with false in H.
  destruct H as [H _]. rewrite H. vm_compute. reflexivity.
Defined.

(** C2, amended.  At a CREATE POLICY statement of name [p] with table [t]
    found in its window, the guard is skipped if and only if there is an
    output line right before and it contains the text
    DROP POLICY IF EXISTS <dq>p<dq>, whatever follows that text; otherwise
    exactly the guard line is inserted.  In particular nothing is inserted
    when the guard line of [p] on [t] is already right before. *)
Theorem policy_guard_skipped_iff U (content : str) (i : nat) (p t : str) :
  i < length (split nl content) ->
  policy_line_shape U (nth i (split nl content) []) p ->
  first_on_clause U (split nl content) i t ->
  let lines := split nl content in
  let fixed_lines := policy_state U lines i in
  let line := nth i lines [] in
  let guard := policy_drop_line (Some p) (Some t) in
  (policy_body U lines i fixed_lines = fixed_lines ++ [line] <->
   exists prev, last_line fixed_lines = Some prev /\
                contains (policy_drop_text (Some p)) prev = true) /\
  (policy_body U lines i fixed_lines = fixed_lines ++ [line] \/
   policy_body U lines i fixed_lines = fixed_lines ++ [guard; line]) /\
  (last_line fixed_lines = Some guard ->
   policy_body U lines i fixed_lines = fixed_lines ++ [line]).
Proof.
  intros Hi Hp Ht lines fixed_lines line guard.
  apply policy_statement_complete in Hp.
  apply lookahead_first_on_clause in Ht; [|lia].
  rewrite (policy_body_spec U lines i _ Hi).
  fold lines in Hp, Ht. rewrite Hp, Ht. fold line.
  assert (L : last_line fixed_lines = prev_line lines i)
    by (apply last_line_policy_state; unfold lines; lia).
  rewrite L. destruct (prev_line lines i) as [prev|]; cbn [has_text].
  - destruct (contains (policy_drop_text (Some p)) prev) eqn:E.
    + repeat split; eauto.
    + repeat split; auto.
      * intros H. apply app_inv_head in H. discriminate.
      * intros (prev' & [= <-] & C). congruence.
      * intros [= ->]. unfold guard in E.
        rewrite policy_drop_line_contains in E. discriminate.
  - repeat split; auto.
    + intros H. apply app_inv_head in H. discriminate.
    + intros (prev' & [=] & _).
    + discriminate.
Qed.

(** C2 as stated fails: in [other_drop_example] the guard of the statement
    on the second line is skipped, and the output line before it is a drop
    of p on the table old: it is not the guard line of p on t. *)
Lemma policy_guard_skipped_without_exact_guard :
  let lines := split nl other_drop_example in
  let fixed_lines := policy_state ascii_only lines 1 in
  policy_line_shape ascii_only (nth 1 lines []) (lit "p") /\
  first_on_clause ascii_only lines 1 (lit "t") /\
  policy_body ascii_only lines 1 fixed_lines = fixed_lines ++ [nth 1 lines []] /\
  last_line fixed_lines <> Some (policy_drop_line (Some (lit "p")) (Some (lit "t"))).
Proof.
  cbv zeta. split; [|split; [|split]].
  - apply policy_statement_shape. vm_compute. reflexivity.
  - apply lookahead_first_on_clause; [vm_compute; lia|vm_compute; reflexivity].
  - vm_compute. reflexivity.
  - vm_compute. discriminate.
Qed.

Lemma policy_guard_skipped_iff_witness :
  let lines := split nl other_drop_example in
  policy_body ascii_only lines 1 (policy_state ascii_only lines 1) =
  policy_state ascii_only lines 1 ++ [nth 1 lines []].
Proof.
  cbv zeta.
  assert (H := policy_guard_skipped_iff ascii_only other_drop_example 1
                 (lit "p") (lit "t")).
  cbv zeta in H.
  assert (H1 : 1 < length (split nl other_drop_example))
    by (apply Nat.ltb_lt; vm_compute; reflexivity).
  assert (H2 : policy_line_shape ascii_only (nth 1 (split nl other_drop_example) [])
                 (lit "p"))
    by (apply policy_statement_shape; vm_compute; reflexivity).
  assert (H3 : first_on_clause ascii_only (split nl other_drop_example) 1 (lit "t"))
    by (apply lookahead_first_on_clause;
        [apply Nat.leb_le; vm_compute; reflexivity|vm_compute; reflexivity]).
  specialize (H H1 H2 H3).
  destruct H as [[_ H] _]. apply H.
  exists (lit "DROP POLICY IF EXISTS " ++ quoted (lit "p") ++ lit " ON old;").
  split; vm_compute; reflexivity.
Defined.

(** C5.  A CREATE POLICY statement whose five-line window has no ON clause
    gets no guard: the turn of the loop adds the line alone, and the output
    is the output so far, the line, and what the rest of the loop adds. *)
Theorem policy_no_table_no_guard U (content : str) (i : nat) (p : str) :
  i < length (split nl content) ->
  policy_line_shape U (nth i (split nl content) []) p ->
  no_on_clause U (split nl content) i ->
  let lines := split nl content in
  (forall fixed_lines,
      policy_body U lines i fixed_lines = fixed_lines ++ [nth i lines []]) /\
  fix_create_policy U content =
  join nl (policy_state U lines i ++ nth i lines [] :: policy_loop U lines (S i) []).
Proof.
  intros Hi Hp Ht lines.
  apply policy_statement_complete in Hp.
  apply lookahead_no_on_clause in Ht; [|lia].
  fold lines in Hp, Ht.
  assert (B : forall fixed_lines,
             policy_body U lines i fixed_lines = fixed_lines ++ [nth i lines []]).
  { intros fixed_lines. rewrite (policy_body_spec U lines i _ Hi), Hp, Ht.
    reflexivity. }
  split; [exact B|].
  unfold fix_create_policy. fold lines.
  rewrite (policy_output_at U lines i Hi), B, <- app_assoc. reflexivity.
Qed.

Lemma policy_no_table_no_guard_witness :
  fix_create_policy ascii_only no_table_example = no_table_example.
Proof.
  assert (H := policy_no_table_no_guard ascii_only no_table_example 0 (lit "p")).
  cbv zeta in H.
  assert (H1 : 0 < length (split nl no_table_example))
    by (apply Nat.ltb_lt; vm_compute; reflexivity).
  assert (H2 : policy_line_shape ascii_only (nth 0 (split nl no_table_example) [])
                 (lit "p"))
    by (apply policy_statement_shape; vm_compute; reflexivity).
  assert (H3 : no_on_clause ascii_only (split nl no_table_example) 0)
    by (apply lookahead_no_on_clause; [apply Nat.le_0_l|vm_compute; reflexivity]).
  specialize (H H1 H2 H3).
  destruct H as [_ H]. rewrite H. vm_compute. reflexivity.
Defined.

(** C10, amended.  The policy fixer gives its own output back when every
    CREATE POLICY statement of the input has an ON clause in its five-line
    window. *)
Theorem fix_create_policy_idempotent U (content : str) :
  (forall i p, i < length (split nl content) ->
               policy_line_shape U (nth i (split nl content) []) p ->
               exists t, first_on_clause U (split nl content) i t) ->
  fix_create_policy U (fix_create_policy U content) = fix_create_policy U content.
Proof.
  intros H. rewrite !fix_create_policy_scan.
  apply line_fixer_idempotent; [apply policy_rule_wf|].
  intros before line after name E Hn.
  assert (Hi : length before < length (split nl content))
    by (rewrite E, length_app; simpl; lia).
  destruct (H (length before) name Hi) as (t & Ht).
  - apply policy_statement_shape. rewrite policy_statement_rule, E, nth_middle.
    exact Hn.
  - apply lookahead_first_on_clause in Ht; [|lia].
    rewrite lookahead_window in Ht by lia.
    rewrite E in Ht at 1.
    rewrite skipn_app, skipn_all, Nat.sub_diag in Ht.
    cbn [skipn app] in Ht. rewrite Ht. discriminate.
Qed.

(** C10 as stated fails: on [far_table_example] the first run inserts the
    guard of b, whose ON clause then stands in the window of the statement
    a, and the second run inserts a guard for a. *)
Lemma fix_create_policy_not_idempotent :
  fix_create_policy ascii_only far_table_example =
    join nl [ lit "CREATE POLICY " ++ quoted (lit "a");
              lit "DROP POLICY IF EXISTS " ++ quoted (lit "b") ++ lit " ON t;";
              lit "CREATE POLICY " ++ quoted (lit "b");
              lit "x"; lit "y"; lit "z"; lit "ON t" ] /\
  fix_create_policy ascii_only (fix_create_policy ascii_only far_table_example) =
    join nl [ lit "DROP POLICY IF EXISTS " ++ quoted (lit "a") ++ lit " ON t;";
              lit "CREATE POLICY " ++ quoted (lit "a");
              lit "DROP POLICY IF EXISTS " ++ quoted (lit "b") ++ lit " ON t;";
              lit "CREATE POLICY " ++ quoted (lit "b");
              lit "x"; lit "y"; lit "z"; lit "ON t" ] /\
  fix_create_policy ascii_only (fix_create_policy ascii_only far_table_example) <>
  fix_create_policy ascii_only far_table_example.
Proof.
  repeat split; try (vm_compute; reflexivity).
  vm_compute. discriminate.
Qed.

Lemma fix_create_policy_idempotent_witness :
  fix_create_policy ascii_only (fix_create_policy ascii_only read_own_example) =
  fix_create_policy ascii_only read_own_example.
Proof.
  apply (fix_create_policy_idempotent ascii_only read_own_example).
  intros i p Hi Hs. apply policy_statement_complete in Hs.
  destruct i as [|[|i]].
  - exists (lit "profiles").
    apply lookahead_first_on_clause; [apply Nat.le_0_l|vm_compute; reflexivity].
  - exfalso. vm_compute in Hs. discriminate Hs.
  - exfalso. apply Nat.ltb_lt in Hi. vm_compute in Hi. discriminate Hi.
Defined.

(* ===================================================================== *)
(** * The index fixer *)
(* ===================================================================== *)

(** The pattern of the index fixer, tried at one place. *)
Lemma match_at_index U (pos : nat) (s : str) :
  match_at (INDEX_PATTERN U) pos s =
  match index_here U s with
  | Some (id, _) =>
      Some (MatchObj pos (pos + length (lit "CREATE INDEX ") + length id) (Some id))
  | None => None
  end.
Proof.
  unfold match_at, INDEX_PATTERN, index_here. cbn [exec].
  destruct (strip_prefix (lit "CREATE INDEX ") s) as [s1|]; [|reflexivity].
  unfold starts_with.
  destruct (strip_prefix (lit "IF NOT EXISTS") s1); [reflexivity|].
  destruct s1 as [|c s1]; [reflexivity|]. cbn [take_while drop_while].
  destruct (is_word U c); [|reflexivity].
  rewrite greedy_total by discriminate.
  set (n := length (take_while (is_word U) s1)).
  replace (S (pos + length (lit "CREATE INDEX ")) + n -
           (pos + length (lit "CREATE INDEX "))) with (S n) by lia.
  cbn [firstn length]. unfold n. rewrite firstn_take_while.
  do 2 f_equal. lia.
Qed.

Lemma index_here_Some U (s id rest : str) :
  index_here U s = Some (id, rest) ->
  s = lit "CREATE INDEX " ++ id ++ rest /\
  id = take_while (is_word U) (id ++ rest) /\
  rest = drop_while (is_word U) (id ++ rest) /\
  id <> [] /\
  starts_with (lit "IF NOT EXISTS") (id ++ rest) = false.
Proof.
  unfold index_here.
  destruct (strip_prefix (lit "CREATE INDEX ") s) as [s1|] eqn:E; [|discriminate].
  apply strip_prefix_Some in E. subst s.
  destruct (starts_with (lit "IF NOT EXISTS") s1) eqn:B; [discriminate|].
  destruct (take_while (is_word U) s1) as [|c w] eqn:T; [discriminate|].
  intros [= <- <-]. rewrite <- T, take_drop_while. repeat split; auto.
  rewrite T. discriminate.
Qed.

(** An occurrence, said without the functions that find it. *)
Lemma index_here_iff U (s id rest : str) :
  index_here U s = Some (id, rest) <->
  s = lit "CREATE INDEX " ++ id ++ rest /\
  id <> [] /\ forallb (is_word U) id = true /\
  take_while (is_word U) rest = [] /\
  starts_with (lit "IF NOT EXISTS") (id ++ rest) = false.
Proof.
  split.
  - intros H. destruct (index_here_Some U _ _ _ H) as (E & Ti & Tr & N & B).
    repeat split; auto.
    + rewrite Ti. apply take_while_all.
    + rewrite Tr. apply take_drop_while_nil.
  - intros (-> & N & F & Z & B). unfold index_here.
    rewrite strip_prefix_app, B, take_while_app_stop, drop_while_app_stop
      by assumption.
    destruct id; [congruence|reflexivity].
Qed.

(** The scan of the index fixer does not depend on the index it is at. *)
Lemma sub_scan_index_pos U (s : str) :
  forall pos pos' skip,
    sub_scan (INDEX_PATTERN U) INDEX_REPLACEMENT pos skip s =
    sub_scan (INDEX_PATTERN U) INDEX_REPLACEMENT pos' skip s.
Proof.
  induction s as [|c s IH]; intros pos pos' skip; cbn [sub_scan].
  - rewrite !match_at_index. reflexivity.
  - destruct skip as [|k]; [|apply IH].
    rewrite !match_at_index.
    destruct (index_here U (c :: s)) as [[id rest]|].
    + unfold expand. cbn [m_group1 m_end map concat].
      replace (pos + length (lit "CREATE INDEX ") + length id - pos)
        with (length (lit "CREATE INDEX ") + length id) by lia.
      replace (pos' + length (lit "CREATE INDEX ") + length id - pos')
        with (length (lit "CREATE INDEX ") + length id) by lia.
      cbn [length lit list_ascii_of_string map plus].
      f_equal. apply IH.
    + f_equal. apply IH.
Qed.

(** The three equations of the index fixer. *)
Lemma fix_create_index_nil U : fix_create_index U [] = [].
Proof. reflexivity. Qed.

Lemma length_create_index : length (lit "CREATE INDEX ") = 13.
Proof. reflexivity. Qed.

Lemma fix_create_index_here U (s id rest : str) :
  index_here U s = Some (id, rest) ->
  fix_create_index U s =
  lit "CREATE INDEX IF NOT EXISTS " ++ id ++ fix_create_index U rest.
Proof.
  intros H. destruct (index_here_Some U s id rest H) as (E & _).
  unfold fix_create_index, re_sub.
  assert (M := match_at_index U 0 s). rewrite H in M.
  rewrite (sub_scan_hit (INDEX_PATTERN U) INDEX_REPLACEMENT 0 (12 + length id) s _ M).
  - replace (S (12 + length id)) with (length (lit "CREATE INDEX ") + length id)
      by (rewrite length_create_index; lia).
    rewrite E at 1. rewrite skipn_two.
    unfold expand, INDEX_REPLACEMENT. cbn [map concat m_group1].
    rewrite app_nil_r, <- app_assoc. do 2 f_equal.
    apply sub_scan_index_pos.
  - cbn [m_end]. rewrite length_create_index. lia.
  - rewrite E, !length_app, length_create_index. lia.
Qed.

Lemma fix_create_index_skip U (c : char) (s : str) :
  index_here U (c :: s) = None ->
  fix_create_index U (c :: s) = c :: fix_create_index U s.
Proof.
  intros H. unfold fix_create_index, re_sub. cbn [sub_scan].
  rewrite match_at_index, H. f_equal. apply sub_scan_index_pos.
Qed.

Lemma index_here_not_C U (c : char) (s : str) :
  c <> letter_C -> index_here U (c :: s) = None.
Proof.
  intros N. unfold index_here. cbn [lit list_ascii_of_string map strip_prefix].
  unfold char_eqb. destruct (N.eqb_spec (N_of_ascii "C") c) as [E|_]; [|reflexivity].
  exfalso. apply N. rewrite <- E. reflexivity.
Qed.

(** Text without the letter C is copied: no match begins in it. *)
Lemma fix_create_index_copy U (u v : str) :
  ~ In letter_C u ->
  fix_create_index U (u ++ v) = u ++ fix_create_index U v.
Proof.
  induction u as [|a u IH]; intros N; [reflexivity|].
  cbn [app]. rewrite fix_create_index_skip.
  - rewrite IH; [reflexivity|]. intros I. apply N. right. exact I.
  - apply index_here_not_C. intros E. apply N. left. exact E.
Qed.

(** A prefix of the output without the letter C was a prefix of the input. *)
Lemma fix_create_index_prefix U (u : str) :
  forall t v,
    ~ In letter_C u ->
    fix_create_index U t = u ++ v ->
    exists v', t = u ++ v' /\ v = fix_create_index U v'.
Proof.
  induction u as [|a u IH]; intros t v N H.
  - exists t. auto.
  - destruct t as [|c t]; [discriminate H|].
    destruct (index_here U (c :: t)) as [[id rest]|] eqn:E.
    + rewrite (fix_create_index_here U _ _ _ E) in H. injection H as H _.
      exfalso. apply N. left. symmetry. exact H.
    + rewrite (fix_create_index_skip U _ _ E) in H. injection H as -> H.
      destruct (IH t v) as (v' & -> & ->); auto.
      * intros I. apply N. right. exact I.
      * exists v'. auto.
Qed.

(** Text in which no occurrence begins is copied. *)
Lemma fix_create_index_before U (before t : str) :
  (forall k, k < length before -> index_here U (skipn k (before ++ t)) = None) ->
  fix_create_index U (before ++ t) = before ++ fix_create_index U t.
Proof.
  induction before as [|c before IH]; intros H; [reflexivity|].
  cbn [app]. rewrite fix_create_index_skip.
  - rewrite IH; [reflexivity|]. intros k Hk. apply (H (S k)). simpl. lia.
  - apply (H 0). simpl. lia.
Qed.

Lemma fix_create_index_unchanged U (content : str) :
  (forall k, index_here U (skipn k content) = None) ->
  fix_create_index U content = content.
Proof.
  intros H. rewrite <- (app_nil_r content) at 1.
  rewrite fix_create_index_before; [apply app_nil_r|].
  intros k _. rewrite app_nil_r. apply H.
Qed.

(** C3, amended.  The index fixer scans the content from left to right.
    The first occurrence of CREATE INDEX and a space followed by an
    identifier, and not by IF NOT EXISTS, is rewritten into
    CREATE INDEX IF NOT EXISTS and the identifier; the text before it is
    kept as it is; the scan goes on in the same way after the identifier,
    so that an occurrence that begins inside an identifier already taken is
    not rewritten.  Content without any occurrence is kept as it is.  The
    example of the specification is rewritten as it says. *)
Theorem fix_create_index_rewrites U :
  (forall before id rest,
      (forall k, k < length before ->
         index_here U (skipn k (before ++ lit "CREATE INDEX " ++ id ++ rest)) = None) ->
      index_here U (lit "CREATE INDEX " ++ id ++ rest) = Some (id, rest) ->
      fix_create_index U (before ++ lit "CREATE INDEX " ++ id ++ rest) =
      before ++ lit "CREATE INDEX IF NOT EXISTS " ++ id ++ fix_create_index U rest) /\
  (forall content,
      (forall k, index_here U (skipn k content) = None) ->
      fix_create_index U content = content) /\
  fix_create_index U (lit "CREATE INDEX idx_users_email ON users(email);") =
  lit "CREATE INDEX IF NOT EXISTS idx_users_email ON users(email);".
Proof.
  split; [|split].
  - intros before id rest B H.
    rewrite fix_create_index_before by exact B.
    rewrite (fix_create_index_here U _ _ _ H). reflexivity.
  - apply fix_create_index_unchanged.
  - reflexivity.
Qed.

(** C3 as stated fails: in [nested_index_example] the text from index 13 on
    is an occurrence, of identifier foo, and the output does not contain
    CREATE INDEX IF NOT EXISTS foo: the occurrence begins inside the
    identifier CREATE of the occurrence at index 0, which is the one
    rewritten. *)
Lemma fix_create_index_misses_nested_occurrence :
  index_here ascii_only (skipn 13 nested_index_example) = Some (lit "foo", []) /\
  fix_create_index ascii_only nested_index_example =
    lit "CREATE INDEX IF NOT EXISTS CREATE INDEX foo" /\
  contains (lit "CREATE INDEX IF NOT EXISTS foo")
           (fix_create_index ascii_only nested_index_example) = false.
Proof. repeat split; vm_compute; reflexivity. Qed.

Lemma fix_create_index_rewrites_witness :
  fix_create_index ascii_only (lit "-- users" ++ nl :: lit "CREATE INDEX a ON t(x);") =
  lit "-- users" ++ nl :: lit "CREATE INDEX IF NOT EXISTS a" ++
  fix_create_index ascii_only (lit " ON t(x);").
Proof.
  destruct (fix_create_index_rewrites ascii_only) as [H _].
  apply (H (lit "-- users" ++ [nl]) (lit "a") (lit " ON t(x);")).
  - intros k Hk.
    do 9 (destruct k as [|k]; [reflexivity|]).
    exfalso. apply Nat.ltb_lt in Hk. vm_compute in Hk. discriminate Hk.
  - reflexivity.
Defined.

(* ===================================================================== *)
(** * Running the index fixer on its own output *)
(* ===================================================================== *)

Lemma is_word_letter_C U : is_word U letter_C = true.
Proof. reflexivity. Qed.

(** After an identifier, the scan copies the next character. *)
Lemma take_while_word_fix U (z : str) :
  take_while (is_word U) z = [] ->
  take_while (is_word U) (fix_create_index U z) = [].
Proof.
  destruct z as [|x z]; intros H; [reflexivity|].
  simpl in H. destruct (is_word U x) eqn:E; [discriminate|].
  rewrite fix_create_index_skip.
  - simpl. rewrite E. reflexivity.
  - apply index_here_not_C. intros ->. rewrite is_word_letter_C in E. discriminate.
Qed.

(** An occurrence in the output, right after CREATE INDEX and a space, was
    one in the input. *)
Lemma index_here_fix U (r : str) :
  index_here U (lit "CREATE INDEX " ++ fix_create_index U r) <> None ->
  index_here U (lit "CREATE INDEX " ++ r) <> None.
Proof.
  unfold index_here. rewrite !strip_prefix_app.
  destruct (starts_with (lit "IF NOT EXISTS") r) eqn:B.
  - unfold starts_with in B.
    destruct (strip_prefix (lit "IF NOT EXISTS") r) as [r'|] eqn:E; [|discriminate].
    apply strip_prefix_Some in E. subst r.
    rewrite fix_create_index_copy by (cbv; intuition discriminate).
    rewrite starts_with_app. auto.
  - intros H.
    destruct (take_while (is_word U) r) eqn:T; [|discriminate].
    rewrite (take_while_word_fix U r T) in H.
    exfalso. apply H.
    destruct (starts_with (lit "IF NOT EXISTS") (fix_create_index U r)); reflexivity.
Qed.

(** Word characters in front of a text that does not begin with one hold
    the prefix CREATE INDEX and a space only as CREATE followed by the
    rest. *)
Lemma create_index_after_word U (w z y : str) :
  w <> [] -> forallb (is_word U) w = true ->
  take_while (is_word U) z = [] ->
  w ++ z = lit "CREATE INDEX " ++ y ->
  w = lit "CREATE" /\ z = lit " INDEX " ++ y.
Proof.
  intros N F Z E.
  assert (T := take_while_app_stop (is_word U) w z F Z).
  rewrite E in T.
  assert (Hw : w = lit "CREATE").
  { rewrite <- T. reflexivity. }
  split; [exact Hw|]. subst w.
  change (lit "CREATE INDEX " ++ y) with (lit "CREATE" ++ lit " INDEX " ++ y) in E.
  apply app_inv_head in E. exact E.
Qed.

Lemma no_nested_occurrence_suffix U (a s : str) :
  no_nested_occurrence U (a ++ s) -> no_nested_occurrence U s.
Proof.
  intros H before w t E F. apply (H (a ++ before) w t); [|exact F].
  rewrite E, <- app_assoc. reflexivity.
Qed.

(** No occurrence begins inside the text CREATE INDEX IF NOT EXISTS and a
    space. *)
Lemma index_here_in_rewritten_text U (x : str) (k : nat) :
  k < 27 ->
  index_here U (skipn k (lit "CREATE INDEX IF NOT EXISTS " ++ x)) = None.
Proof.
  intros H. do 27 (destruct k as [|k]; [reflexivity|]). lia.
Qed.

(** In the output, no occurrence begins inside a rewritten statement. *)
Lemma no_match_in_rewritten U (id rest : str) (k : nat) :
  index_here U (lit "CREATE INDEX " ++ id ++ rest) = Some (id, rest) ->
  no_nested_occurrence U (lit "CREATE INDEX " ++ id ++ rest) ->
  k < length (lit "CREATE INDEX IF NOT EXISTS " ++ id) ->
  index_here U
    (skipn k ((lit "CREATE INDEX IF NOT EXISTS " ++ id) ++ fix_create_index U rest)) =
  None.
Proof.
  intros H Nn Hk.
  destruct (index_here_Some U _ _ _ H) as (_ & Tid & Trest & Nid & _).
  rewrite <- app_assoc.
  destruct (Nat.lt_ge_cases k 27) as [Lk|Lk];
    [apply index_here_in_rewritten_text; exact Lk|].
  rewrite length_app in Hk.
  change (length (lit "CREATE INDEX IF NOT EXISTS ")) with 27 in Hk.
  rewrite skipn_app, skipn_all2 by exact Lk.
  change (length (lit "CREATE INDEX IF NOT EXISTS ")) with 27.
  cbn [app]. set (j := k - 27). assert (Hj : j < length id) by (unfold j; lia).
  clearbody j. clear k Hk Lk.
  rewrite skipn_app. replace (j - length id) with 0 by lia. cbn [skipn].
  destruct (index_here U (skipn j id ++ fix_create_index U rest)) as [[id' rest']|] eqn:E;
    [exfalso|reflexivity].
  assert (Fid : forallb (is_word U) id = true)
    by (rewrite Tid; apply take_while_all).
  assert (Zrest : take_while (is_word U) rest = [])
    by (rewrite Trest; apply take_drop_while_nil).
  destruct (index_here_Some U _ _ _ E) as (E' & _).
  destruct (create_index_after_word U (skipn j id) (fix_create_index U rest)
              (id' ++ rest')) as (Hw & Hz).
  - intros Z. apply (f_equal (@length _)) in Z. rewrite length_skipn in Z.
    simpl in Z. lia.
  - apply forallb_skipn. exact Fid.
  - apply take_while_word_fix. exact Zrest.
  - exact E'.
  - destruct (fix_create_index_prefix U (lit " INDEX ") rest (id' ++ rest'))
      as (r & Hr & Hfr); [cbv; intuition discriminate|exact Hz|].
    assert (O : index_here U (lit "CREATE INDEX " ++ r) <> None).
    { apply index_here_fix. rewrite <- Hfr.
      change (lit "CREATE INDEX " ++ id' ++ rest')
        with (lit "CREATE" ++ lit " INDEX " ++ id' ++ rest').
      rewrite <- Hz, <- Hw, E. discriminate. }
    apply O.
    apply (Nn [] (firstn j id) (lit "CREATE INDEX " ++ r)).
    + cbn [app]. rewrite <- (firstn_skipn j id) at 1. rewrite Hw, Hr.
      rewrite <- !app_assoc. reflexivity.
    + apply forallb_firstn. exact Fid.
Qed.

(** Where the input has no occurrence, the output has none. *)
Lemma create_index_cons : lit "CREATE INDEX " = letter_C :: lit "REATE INDEX ".
Proof. reflexivity. Qed.

Lemma index_here_none_fix U (c : char) (s : str) :
  index_here U (c :: s) = None ->
  index_here U (c :: fix_create_index U s) = None.
Proof.
  intros H.
  destruct (index_here U (c :: fix_create_index U s)) as [[id rest]|] eqn:E;
    [exfalso|reflexivity].
  destruct (index_here_Some U _ _ _ E) as (E' & _).
  rewrite create_index_cons in E'. cbn [app] in E'.
  apply cons_eq_inv in E'. destruct E' as [Hc Hs]. subst c.
  destruct (fix_create_index_prefix U (lit "REATE INDEX ") s (id ++ rest))
    as (r & Hr & Hfr); [cbv; intuition discriminate|exact Hs|].
  subst s. apply (index_here_fix U r).
  - rewrite <- Hfr, create_index_cons. cbn [app]. rewrite <- Hs, E. discriminate.
  - rewrite create_index_cons. exact H.
Qed.

Lemma fix_create_index_twice U (n : nat) :
  forall content,
    length content <= n ->
    no_nested_occurrence U content ->
    fix_create_index U (fix_create_index U content) = fix_create_index U content.
Proof.
  induction n as [|n IH]; intros s L Nn.
  - destruct s; [reflexivity|simpl in L; lia].
  - destruct s as [|c s]; [reflexivity|].
    destruct (index_here U (c :: s)) as [[id rest]|] eqn:E.
    + destruct (index_here_Some U _ _ _ E) as (Es & _).
      rewrite (fix_create_index_here U _ _ _ E).
      rewrite Es in E, Nn.
      rewrite app_assoc.
      rewrite fix_create_index_before
        by (intros k Hk; apply no_match_in_rewritten; assumption).
      rewrite IH; [reflexivity| |].
      * apply (f_equal (@length _)) in Es. rewrite !length_app in Es.
        simpl in Es, L. lia.
      * rewrite app_assoc in Nn.
        apply (no_nested_occurrence_suffix U _ _ Nn).
    + rewrite (fix_create_index_skip U _ _ E).
      rewrite fix_create_index_skip by (apply index_here_none_fix; exact E).
      rewrite IH; [reflexivity|simpl in L; lia|].
      apply (no_nested_occurrence_suffix U [c] s Nn).
Qed.

(** C4, amended.  Applying the index fixer to its own output gives that
    output again, for every content in which no occurrence of the pattern
    begins inside the identifier that follows another CREATE INDEX; and a
    statement that carries IF NOT EXISTS is not matched by the pattern. *)
Theorem fix_create_index_idempotent U (content : str) :
  no_nested_occurrence U content ->
  fix_create_index U (fix_create_index U content) = fix_create_index U content /\
  (forall pos t,
      match_at (INDEX_PATTERN U) pos (lit "CREATE INDEX IF NOT EXISTS" ++ t) = None).
Proof.
  intros H. split.
  - apply (fix_create_index_twice U (length content)); [lia|exact H].
  - intros pos t. rewrite match_at_index. reflexivity.
Qed.

(** C4 as stated fails: the output for [nested_index_example] holds an
    occurrence that the first run left, and the second run rewrites it. *)
Lemma fix_create_index_not_idempotent :
  fix_create_index ascii_only nested_index_example =
    lit "CREATE INDEX IF NOT EXISTS CREATE INDEX foo" /\
  fix_create_index ascii_only (fix_create_index ascii_only nested_index_example) =
    lit "CREATE INDEX IF NOT EXISTS CREATE INDEX IF NOT EXISTS foo" /\
  fix_create_index ascii_only (fix_create_index ascii_only nested_index_example) <>
  fix_create_index ascii_only nested_index_example.
Proof.
  repeat split; try (vm_compute; reflexivity).
  vm_compute. discriminate.
Qed.

Lemma fix_create_index_idempotent_witness :
  fix_create_index ascii_only (fix_create_index ascii_only (lit "CREATE INDEX a")) =
  fix_create_index ascii_only (lit "CREATE INDEX a").
Proof.
  apply (fix_create_index_idempotent ascii_only (lit "CREATE INDEX a")).
  intros before w t E F.
  destruct t as [|x t]; [reflexivity|].
  assert (L := f_equal (@length _) E).
  rewrite !length_app in L. simpl in L.
  destruct before; [|simpl in L; lia].
  destruct w; [|simpl in L; lia].
  destruct t; [|simpl in L; lia].
  cbn [app] in E. apply app_inv_head with (l := lit "CREATE INDEX ") in E.
  injection E as <-. reflexivity.
Defined.

(* ===================================================================== *)
(** * The driver *)
(* ===================================================================== *)

Lemma writes_app (a b : list event) : writes (a ++ b) = writes a ++ writes b.
Proof. apply flat_map_app. Qed.

Lemma writes_unchanged (tr : list event) (a b : str) (p : path) :
  writes (tr ++ [Printed a; Read p; Printed b]) = writes tr.
Proof. rewrite writes_app. cbn. apply app_nil_r. Qed.

Lemma writes_changed (tr : list event) (a b c : str) (p : path) :
  writes (tr ++ [Printed a; Read p; Wrote p c; Printed b]) = writes tr ++ [(p, c)].
Proof. rewrite writes_app. reflexivity. Qed.

Lemma fix_migration_file_run U (filepath : path) (content : str) (w : world) :
  files w filepath = Some content ->
  fix_migration_file U filepath w =
  Ok (negb (str_eqb (fixed_content U content) content)) (after_fix U filepath content w).
Proof.
  intros H. unfold fix_migration_file, after_fix, fixed_content, bind, print,
    read_file, write_file, ret, emit. cbn [files trace]. rewrite H.
  destruct (str_eqb _ content); cbn [negb files trace];
    rewrite <- !app_assoc; reflexivity.
Qed.

(** C8.  On an existing file the driver returns, and it writes the file if
    and only if the content after the index fixer, then the policy fixer,
    then the trigger fixer differs from the content read: then the write
    is the only one, it puts that content in the file, and the result is
    True; otherwise nothing is written, no file changes, and the result is
    False. *)
Theorem fix_migration_file_writes_iff_changed U (filepath : path)
    (content : str) (w : world) :
  files w filepath = Some content ->
  let final := fix_create_trigger U (fix_create_policy U (fix_create_index U content)) in
  exists (fixed : bool) (w' : world),
    fix_migration_file U filepath w = Ok fixed w' /\
    (fixed = true <-> final <> content) /\
    (fixed = true <-> writes (trace w') <> writes (trace w)) /\
    (final <> content ->
       writes (trace w') = writes (trace w) ++ [(filepath, final)] /\
       files w' filepath = Some final /\
       forall q, q <> filepath -> files w' q = files w q) /\
    (final = content ->
       writes (trace w') = writes (trace w) /\ files w' = files w).
Proof.
  intros H final. fold (fixed_content U content) in final.
  exists (negb (str_eqb final content)), (after_fix U filepath content w).
  split; [apply fix_migration_file_run; exact H|].
  unfold after_fix. fold final.
  destruct (str_eqb final content) eqn:E; cbn [negb trace files].
  - apply str_eqb_eq in E. rewrite writes_unchanged.
    split; [split; [discriminate|congruence]|].
    split; [split; [discriminate|congruence]|].
    split; [congruence|auto].
  - assert (N : final <> content)
      by (intros N; apply str_eqb_eq in N; congruence).
    rewrite writes_changed.
    assert (Q : writes (trace w) ++ [(filepath, final)] <> writes (trace w)).
    { intros Q. apply (f_equal (@length _)) in Q. rewrite length_app in Q.
      simpl in Q. lia. }
    split; [tauto|]. split; [tauto|]. split; [|congruence].
    intros _. split; [reflexivity|]. split.
    + rewrite (proj2 (path_eqb_eq filepath filepath) eq_refl). reflexivity.
    + intros q Hq. destruct (path_eqb q filepath) eqn:P; [|reflexivity].
      apply path_eqb_eq in P. congruence.
Qed.

Lemma fix_migration_file_writes_iff_changed_witness :
  let filepath := Path migrations_dir (lit "00004_rate_limiting.sql") in
  let w := {| files := fun q => if path_eqb q filepath
                                then Some (lit "CREATE INDEX a ON t(x);") else None;
              trace := [] |} in
  exists w',
    fix_migration_file ascii_only filepath w = Ok true w' /\
    writes (trace w') = [(filepath, lit "CREATE INDEX IF NOT EXISTS a ON t(x);")].
Proof.
  intros filepath w.
  destruct (fix_migration_file_writes_iff_changed ascii_only filepath
              (lit "CREATE INDEX a ON t(x);") w eq_refl)
    as (fixed & w' & R & F & _ & C & _).
  assert (N : fix_create_trigger ascii_only
                (fix_create_policy ascii_only
                   (fix_create_index ascii_only (lit "CREATE INDEX a ON t(x);"))) <>
              lit "CREATE INDEX a ON t(x);")
    by (vm_compute; discriminate).
  exists w'. split.
  - rewrite R. f_equal. apply F. exact N.
  - apply C in N. destruct N as [N _]. rewrite N. reflexivity.
Defined.

Lemma after_fix_trace U (filepath : path) (content : str) (w : world) :
  trace (after_fix U filepath content w) = trace w ++ fix_events U filepath content.
Proof.
  unfold after_fix, fix_events.
  destruct (negb (str_eqb (fixed_content U content) content)); reflexivity.
Qed.

Lemma after_fix_other U (filepath : path) (content : str) (w : world) (p : path) :
  p <> filepath -> files (after_fix U filepath content w) p = files w p.
Proof.
  intros N. unfold after_fix.
  destruct (negb (str_eqb (fixed_content U content) content)); cbn [files];
    [|reflexivity].
  destruct (path_eqb p filepath) eqn:E; [|reflexivity].
  apply path_eqb_eq in E. contradiction.
Qed.

Lemma writes_fix_events U (filepath : path) (content : str) :
  length (writes (fix_events U filepath content)) =
  if negb (str_eqb (fixed_content U content) content) then 1 else 0.
Proof.
  unfold fix_events.
  destruct (negb (str_eqb (fixed_content U content) content)); reflexivity.
Qed.

Lemma writes_file_events U (w : world) (migration_name : str) :
  length (writes (file_events U w migration_name)) =
  if modified U w migration_name then 1 else 0.
Proof.
  unfold file_events, modified.
  destruct (files w (Path migrations_dir migration_name)); [|reflexivity].
  apply writes_fix_events.
Qed.

(** The number of writes of a run is the number of modified files. *)
Lemma writes_flat_map_file_events U (w : world) (names : list str) :
  length (writes (flat_map (file_events U w) names)) =
  length (filter (modified U w) names).
Proof.
  induction names as [|m names IH]; [reflexivity|].
  cbn [flat_map filter]. rewrite writes_app, length_app, writes_file_events, IH.
  destruct (modified U w m); reflexivity.
Qed.

Lemma modified_present U (w : world) (migration_name content : str) :
  files w (Path migrations_dir migration_name) = Some content ->
  modified U w migration_name = negb (str_eqb (fixed_content U content) content).
Proof. intros F. unfold modified. rewrite F. reflexivity. Qed.

Lemma modified_absent U (w : world) (migration_name : str) :
  files w (Path migrations_dir migration_name) = None ->
  modified U w migration_name = false.
Proof. intros F. unfold modified. rewrite F. reflexivity. Qed.

Lemma file_events_present U (w : world) (migration_name content : str) :
  files w (Path migrations_dir migration_name) = Some content ->
  file_events U w migration_name =
  fix_events U (Path migrations_dir migration_name) content.
Proof. intros F. unfold file_events. rewrite F. reflexivity. Qed.

Lemma file_events_absent U (w : world) (migration_name : str) :
  files w (Path migrations_dir migration_name) = None ->
  file_events U w migration_name = [Printed (not_found_line migration_name)].
Proof. intros F. unfold file_events. rewrite F. reflexivity. Qed.

Lemma main_loop_absent U (migration_name : str) (names : list str)
    (fixed_count : nat) (w : world) :
  files w (Path migrations_dir migration_name) = None ->
  main_loop U (migration_name :: names) fixed_count w =
  main_loop U names fixed_count (emit (Printed (not_found_line migration_name)) w).
Proof.
  intros H. cbn [main_loop]. unfold bind at 1. unfold exists_ at 1. rewrite H.
  reflexivity.
Qed.

Lemma main_loop_present U (migration_name : str) (names : list str)
    (fixed_count : nat) (w : world) (content : str) :
  files w (Path migrations_dir migration_name) = Some content ->
  main_loop U (migration_name :: names) fixed_count w =
  main_loop U names
    (if negb (str_eqb (fixed_content U content) content)
     then fixed_count + 1 else fixed_count)
    (after_fix U (Path migrations_dir migration_name) content w).
Proof.
  intros H. cbn [main_loop]. unfold bind at 1. unfold exists_ at 1. rewrite H.
  unfold bind at 1. unfold bind at 1.
  rewrite (fix_migration_file_run U _ content w H). reflexivity.
Qed.

(** What a run of the loop of [main] does, from any world: the names are
    taken in order, each gives its events, and nothing is raised. *)
Lemma main_loop_run U (names : list str) :
  NoDup names ->
  forall fixed_count w,
  exists w',
    main_loop U names fixed_count w =
      Ok (fixed_count + length (filter (modified U w) names)) w' /\
    trace w' = trace w ++ flat_map (file_events U w) names.
Proof.
  induction 1 as [|migration_name names Hn Hd IH]; intros fixed_count w.
  - exists w. cbn [main_loop filter flat_map length]. unfold ret.
    rewrite Nat.add_0_r, app_nil_r. auto.
  - destruct (files w (Path migrations_dir migration_name)) as [content|] eqn:F.
    + rewrite (main_loop_present U _ _ _ _ _ F).
      set (w1 := after_fix U (Path migrations_dir migration_name) content w).
      set (n1 := if negb (str_eqb (fixed_content U content) content)
                 then fixed_count + 1 else fixed_count).
      destruct (IH n1 w1) as (w' & R & T).
      assert (S1 : forall m, In m names ->
                     files w1 (Path migrations_dir m) = files w (Path migrations_dir m)).
      { intros m I. apply after_fix_other. intros [= ->]. contradiction. }
      exists w'. split.
      * rewrite R. f_equal.
        rewrite (filter_agree (modified U w1) (modified U w))
          by (intros m I; unfold modified; rewrite (S1 m I); reflexivity).
        cbn [filter]. rewrite (modified_present U w _ _ F). unfold n1.
        destruct (negb _); simpl; lia.
      * assert (AT := after_fix_trace U (Path migrations_dir migration_name) content w).
        fold w1 in AT. rewrite T, AT, <- app_assoc.
        cbn [flat_map]. rewrite (file_events_present U w _ _ F). do 2 f_equal.
        apply flat_map_agree. intros m I. unfold file_events.
        rewrite (S1 m I). reflexivity.
    + rewrite (main_loop_absent U _ _ _ _ F).
      destruct (IH fixed_count (emit (Printed (not_found_line migration_name)) w))
        as (w' & R & T).
      exists w'. split.
      * rewrite R. f_equal. cbn [filter]. rewrite (modified_absent U w _ F).
        reflexivity.
      * rewrite T. unfold emit. cbn [trace flat_map]. rewrite <- app_assoc.
        rewrite (file_events_absent U w _ F). reflexivity.
Qed.

Lemma migrations_to_fix_NoDup : NoDup migrations_to_fix.
Proof.
  unfold migrations_to_fix.
  repeat (constructor; [simpl; intuition discriminate|]). constructor.
Qed.

(** C9.  From any state of the migrations directory, [main] returns
    without raising.  Its events are those of the listed names, taken in
    the order of the list: a name whose file is absent gives its not-found
    line and nothing else, a name whose file is there gives the events of
    [fix_migration_file], whatever came before it in the list.  The count
    of the summary line is the number of listed files that are there and
    whose content the fixers change, which is the number of writes of the
    run: absent and unchanged files count for nothing. *)
Theorem main_counts_written_files U (w : world) :
  let run := flat_map (file_events U w) migrations_to_fix in
  let fixed_count := length (filter (modified U w) migrations_to_fix) in
  (exists w',
      main U w = Ok tt w' /\
      trace w' =
        trace w ++ run ++
        [ Printed (summary_line fixed_count);
          Printed (lit "All migrations are now idempotent and safe to re-run!") ]) /\
  fixed_count = length (writes run) /\
  (forall migration_name,
      files w (Path migrations_dir migration_name) = None ->
      file_events U w migration_name = [Printed (not_found_line migration_name)] /\
      modified U w migration_name = false) /\
  (forall migration_name content,
      files w (Path migrations_dir migration_name) = Some content ->
      fixed_content U content = content ->
      writes (file_events U w migration_name) = [] /\
      modified U w migration_name = false).
Proof.
  intros run fixed_count.
  destruct (main_loop_run U migrations_to_fix migrations_to_fix_NoDup 0 w)
    as (w1 & R & T).
  split; [|split; [|split]].
  - exists (emit (Printed (lit "All migrations are now idempotent and safe to re-run!"))
              (emit (Printed (summary_line fixed_count)) w1)).
    split.
    + unfold main, bind. rewrite R. reflexivity.
    + unfold emit. cbn [trace]. rewrite T, <- !app_assoc. reflexivity.
  - symmetry. apply writes_flat_map_file_events.
  - intros m F. unfold file_events, modified. rewrite F. auto.
  - intros m content F E. unfold file_events, modified, fix_events.
    rewrite F, E, str_eqb_refl. auto.
Qed.

(** A run of [main] in a directory that holds one of the listed files:
    seven not-found lines, one write, and the count 1. *)
Example main_one_file :
  let filepath := Path migrations_dir (lit "00004_rate_limiting.sql") in
  let w := {| files := fun q => if path_eqb q filepath
                                then Some (lit "CREATE INDEX a ON t(x);") else None;
              trace := [] |} in
  match main ascii_only w with
  | Ok _ w' =>
      writes (trace w') = [(filepath, lit "CREATE INDEX IF NOT EXISTS a ON t(x);")] /\
      nth 11 (trace w') (Read filepath) =
        Printed (nl :: check_mark :: lit " Fixed 1 migration files")
  | Raised _ _ => False
  end.
Proof. vm_compute. split; reflexivity. Qed.

(* ===================================================================== *)
(** * The trigger fixer, turn by turn *)
(* ===================================================================== *)

Lemma trigger_state_S U (lines : list str) (i : nat) :
  trigger_state U lines (S i) = trigger_body U lines i (trigger_state U lines i).
Proof.
  unfold trigger_state, py_range. rewrite !Nat.sub_0_r, seq_S, fold_left_app.
  reflexivity.
Qed.

Lemma trigger_loop_acc U (lines : list str) (i : nat) (fixed_lines : list str) :
  i <= length lines ->
  trigger_loop U lines i fixed_lines = fixed_lines ++ trigger_loop U lines i [].
Proof.
  intros H.
  rewrite (trigger_loop_scan U lines (length lines - i) i fixed_lines) by lia.
  rewrite (trigger_loop_scan U lines (length lines - i) i []) by lia.
  reflexivity.
Qed.

Lemma trigger_loop_step U (lines : list str) (i : nat) (fixed_lines : list str) :
  i < length lines ->
  trigger_loop U lines i fixed_lines =
  trigger_loop U lines (S i) (trigger_body U lines i fixed_lines).
Proof.
  intros H. rewrite trigger_loop_equation_1.
  destruct (lt_dec i (length lines)); [reflexivity|lia].
Qed.

Lemma trigger_state_loop U (lines : list str) (i : nat) :
  i <= length lines ->
  trigger_loop U lines 0 [] = trigger_state U lines i ++ trigger_loop U lines i [].
Proof.
  induction i as [|i IH]; intros H.
  - reflexivity.
  - rewrite IH by lia. rewrite <- trigger_loop_acc by lia.
    rewrite trigger_loop_step by lia. rewrite <- trigger_state_S.
    apply trigger_loop_acc. lia.
Qed.

Lemma trigger_statement_rule U (line : str) :
  trigger_statement U line = statement_name (TRIGGER_RULE U) line.
Proof. reflexivity. Qed.

(** One turn of the loop of the trigger fixer, by cases. *)
Lemma trigger_body_spec U (lines : list str) (i : nat) (fixed_lines : list str) :
  i < length lines ->
  trigger_body U lines i fixed_lines =
  fixed_lines ++
  match trigger_statement U (nth i lines []), lookahead U lines i with
  | Some n, Some t =>
      if has_text (trigger_drop_text (Some n)) (prev_line lines i) then []
      else [trigger_drop_line (Some n) (Some t)]
  | _, _ => []
  end ++ [nth i lines []].
Proof.
  intros H. rewrite trigger_body_guard by exact H.
  rewrite (guard_for_spec U _ _ _ _ (trigger_rule_wf U)).
  rewrite <- lookahead_window by lia. rewrite <- trigger_statement_rule.
  destruct (trigger_statement U (nth i lines [])) as [n|]; [|reflexivity].
  destruct (lookahead U lines i) as [t|]; [|reflexivity].
  cbn [rule_drop_text TRIGGER_RULE]. rewrite <- (trigger_drop_line_rule U).
  reflexivity.
Qed.

Lemma last_line_trigger_state U (lines : list str) (i : nat) :
  i <= length lines ->
  last_line (trigger_state U lines i) = prev_line lines i.
Proof.
  destruct i as [|i]; intros H.
  - reflexivity.
  - rewrite trigger_state_S, trigger_body_spec, prev_line_S by lia.
    rewrite app_assoc. apply last_line_app.
Qed.

Lemma trigger_output_at U (lines : list str) (i : nat) :
  i < length lines ->
  trigger_loop U lines 0 [] =
  trigger_body U lines i (trigger_state U lines i) ++ trigger_loop U lines (S i) [].
Proof.
  intros H. rewrite (trigger_state_loop U lines (S i)) by lia.
  rewrite trigger_state_S. reflexivity.
Qed.

Lemma trigger_drop_line_contains (name table : option str) :
  contains (trigger_drop_text name) (trigger_drop_line name table) = true.
Proof.
  unfold trigger_drop_line.
  replace (lit "DROP TRIGGER IF EXISTS " ++ fmt name ++
           lit " ON " ++ fmt table ++ lit ";")
    with (trigger_drop_text name ++ lit " ON " ++ fmt table ++ lit ";").
  - apply contains_prefix.
  - unfold trigger_drop_text. rewrite <- !app_assoc. reflexivity.
Qed.

Lemma contains_tail (x : str) (c : char) (s : str) :
  contains x s = true -> contains x (c :: s) = true.
Proof. intros H. cbn [contains]. rewrite H. apply orb_true_r. Qed.

Lemma contains_inside (x a b : str) : contains x (a ++ x ++ b) = true.
Proof.
  induction a as [|c a IH]; [exact (contains_prefix x b)|].
  cbn [app]. apply contains_tail. exact IH.
Qed.

(** X1.  Take a line of the input that the trigger fixer takes for a
    CREATE TRIGGER statement of name [n], and whose five-line window has a
    first ON clause, of table [t].  If the line before it does not contain
    the text DROP TRIGGER IF EXISTS n, the output has the guard line of [n]
    on [t] right before the statement, and the line before that guard is
    not the guard.  If the line before it contains that text, nothing is
    inserted. *)
Theorem trigger_guard_before_statement U (content : str) (i : nat) (n t : str) :
  i < length (split nl content) ->
  trigger_statement U (nth i (split nl content) []) = Some n ->
  first_on_clause U (split nl content) i t ->
  let lines := split nl content in
  let before := trigger_state U lines i in
  let guard := trigger_drop_line (Some n) (Some t) in
  let rest := nth i lines [] :: trigger_loop U lines (S i) [] in
  if has_text (trigger_drop_text (Some n)) (prev_line lines i)
  then fix_create_trigger U content = join nl (before ++ rest) /\
       exists prev, last_line before = Some prev /\
                    contains (trigger_drop_text (Some n)) prev = true
  else fix_create_trigger U content = join nl (before ++ guard :: rest) /\
       last_line before <> Some guard.
Proof.
  intros Hi Hp Ht lines before guard rest.
  apply lookahead_first_on_clause in Ht; [|lia].
  unfold fix_create_trigger. fold lines.
  rewrite (trigger_output_at U lines i Hi), (trigger_body_spec U lines i _ Hi).
  fold lines in Hp, Ht. rewrite Hp, Ht. fold before.
  assert (L : last_line before = prev_line lines i)
    by (apply last_line_trigger_state; unfold lines; lia).
  destruct (has_text (trigger_drop_text (Some n)) (prev_line lines i)) eqn:E.
  - split; [rewrite <- !app_assoc; reflexivity|].
    rewrite L. destruct (prev_line lines i) as [prev|]; [|discriminate].
    exists prev. auto.
  - split; [rewrite <- !app_assoc; reflexivity|].
    rewrite L. apply (has_text_guard _ _ _ E), trigger_drop_line_contains.
Qed.

Lemma trigger_guard_before_statement_witness :
  fix_create_trigger ascii_only trigger_example =
  join nl [ lit "DROP TRIGGER IF EXISTS trg ON public.users;";
            lit "  CREATE TRIGGER trg";
            lit "  BEFORE UPDATE ON public.users" ].
Proof.
  assert (H := trigger_guard_before_statement ascii_only trigger_example 0
                 (lit "trg") (lit "public.users")).
  cbv zeta in H.
  assert (H1 : 0 < length (split nl trigger_example))
    by (apply Nat.ltb_lt; vm_compute; reflexivity).
  assert (H3 : first_on_clause ascii_only (split nl trigger_example) 0
                 (lit "public.users"))
    by (apply lookahead_first_on_clause; [apply Nat.le_0_l|vm_compute; reflexivity]).
  specialize (H H1 eq_refl H3).
  change (has_text (trigger_drop_text (Some (lit "trg")))
            (prev_line (split nl trigger_example) 0)) with false in H.
  destruct H as [H _]. rewrite H. vm_compute. reflexivity.
Defined.

(** X2.  The duplicate check of the trigger fixer looks for the text
    DROP TRIGGER IF EXISTS n anywhere in the line before the statement and
    asks for nothing after the name: the guard of the trigger [n] is
    skipped as soon as the line before holds that text followed by anything,
    for instance the drop of a trigger whose name begins with [n], or a drop
    of [n] on another table. *)
Theorem trigger_guard_skipped_by_any_drop U (content : str) (i : nat)
    (n t a b : str) :
  0 < i < length (split nl content) ->
  trigger_statement U (nth i (split nl content) []) = Some n ->
  nth (i - 1) (split nl content) [] = a ++ lit "DROP TRIGGER IF EXISTS " ++ n ++ b ->
  let lines := split nl content in
  (forall fixed_lines,
      trigger_body U lines i fixed_lines = fixed_lines ++ [nth i lines []]) /\
  fix_create_trigger U content =
  join nl (trigger_state U lines i ++ nth i lines [] :: trigger_loop U lines (S i) []).
Proof.
  intros Hi Hp Hprev lines. fold lines in Hp, Hprev.
  assert (B : forall fixed_lines,
             trigger_body U lines i fixed_lines = fixed_lines ++ [nth i lines []]).
  { intros fixed_lines. rewrite (trigger_body_spec U lines i) by (unfold lines; lia).
    rewrite Hp. destruct (lookahead U lines i); [|reflexivity].
    unfold prev_line. destruct (Nat.ltb_spec 0 i) as [_|L]; [|lia].
    cbn [has_text]. rewrite Hprev. unfold trigger_drop_text. cbn [fmt].
    rewrite (app_assoc (lit "DROP TRIGGER IF EXISTS ") n b), contains_inside.
    reflexivity. }
  split; [exact B|].
  unfold fix_create_trigger. fold lines.
  rewrite (trigger_output_at U lines i) by (unfold lines; lia).
  rewrite B, <- app_assoc. reflexivity.
Qed.

Lemma trigger_guard_skipped_by_any_drop_witness :
  fix_create_trigger ascii_only longer_name_example = longer_name_example.
Proof.
  assert (H := trigger_guard_skipped_by_any_drop ascii_only longer_name_example 1
                 (lit "audit") (lit "t") [] (lit "_v2 ON t;")).
  cbv zeta in H.
  assert (H1 : 0 < 1 < length (split nl longer_name_example))
    by (split; apply Nat.ltb_lt; vm_compute; reflexivity).
  specialize (H H1 eq_refl eq_refl).
  destruct H as [_ H]. rewrite H. vm_compute. reflexivity.
Defined.

(** X3.  A CREATE TRIGGER statement whose five-line window has no ON clause
    gets no guard from the trigger fixer. *)
Theorem trigger_no_table_no_guard U (content : str) (i : nat) (n : str) :
  i < length (split nl content) ->
  trigger_statement U (nth i (split nl content) []) = Some n ->
  no_on_clause U (split nl content) i ->
  let lines := split nl content in
  (forall fixed_lines,
      trigger_body U lines i fixed_lines = fixed_lines ++ [nth i lines []]) /\
  fix_create_trigger U content =
  join nl (trigger_state U lines i ++ nth i lines [] :: trigger_loop U lines (S i) []).
Proof.
  intros Hi Hp Ht lines.
  apply lookahead_no_on_clause in Ht; [|lia].
  fold lines in Hp, Ht.
  assert (B : forall fixed_lines,
             trigger_body U lines i fixed_lines = fixed_lines ++ [nth i lines []]).
  { intros fixed_lines. rewrite (trigger_body_spec U lines i _ Hi), Hp, Ht.
    reflexivity. }
  split; [exact B|].
  unfold fix_create_trigger. fold lines.
  rewrite (trigger_output_at U lines i Hi), B, <- app_assoc. reflexivity.
Qed.

Lemma trigger_no_table_no_guard_witness :
  fix_create_trigger ascii_only trigger_no_table_example = trigger_no_table_example.
Proof.
  assert (H := trigger_no_table_no_guard ascii_only trigger_no_table_example 0
                 (lit "trg")).
  cbv zeta in H.
  assert (H1 : 0 < length (split nl trigger_no_table_example))
    by (apply Nat.ltb_lt; vm_compute; reflexivity).
  assert (H3 : no_on_clause ascii_only (split nl trigger_no_table_example) 0)
    by (apply lookahead_no_on_clause; [apply Nat.le_0_l|vm_compute; reflexivity]).
  specialize (H H1 eq_refl H3).
  destruct H as [_ H]. rewrite H. vm_compute. reflexivity.
Defined.

(** X4.  The trigger fixer gives its own output back when every line that
    it takes for a CREATE TRIGGER statement has an ON clause in its
    five-line window. *)
Theorem fix_create_trigger_idempotent U (content : str) :
  (forall i n, i < length (split nl content) ->
               trigger_statement U (nth i (split nl content) []) = Some n ->
               exists t, first_on_clause U (split nl content) i t) ->
  fix_create_trigger U (fix_create_trigger U content) = fix_create_trigger U content.
Proof.
  intros H. rewrite !fix_create_trigger_scan.
  apply line_fixer_idempotent; [apply trigger_rule_wf|].
  intros before line after name E Hn.
  assert (Hi : length before < length (split nl content))
    by (rewrite E, length_app; simpl; lia).
  destruct (H (length before) name Hi) as (t & Ht).
  - rewrite trigger_statement_rule, E, nth_middle. exact Hn.
  - apply lookahead_first_on_clause in Ht; [|lia].
    rewrite lookahead_window in Ht by lia.
    rewrite E in Ht at 1.
    rewrite skipn_app, skipn_all, Nat.sub_diag in Ht.
    cbn [skipn app] in Ht. rewrite Ht. discriminate.
Qed.

Lemma fix_create_trigger_idempotent_witness :
  fix_create_trigger ascii_only (fix_create_trigger ascii_only trigger_example) =
  fix_create_trigger ascii_only trigger_example.
Proof.
  apply (fix_create_trigger_idempotent ascii_only trigger_example).
  intros i n Hi Hs.
  destruct i as [|[|i]].
  - exists (lit "public.users").
    apply lookahead_first_on_clause; [apply Nat.le_0_l|vm_compute; reflexivity].
  - exfalso. vm_compute in Hs. discriminate Hs.
  - exfalso. apply Nat.ltb_lt in Hi. vm_compute in Hi. discriminate Hi.
Defined.

(* ===================================================================== *)
(** * Where the line fixers put their guards *)
(* ===================================================================== *)

Lemma scan_guarded U (R : guard_rule) (lines : list str) :
  rule_wf U R ->
  forall prev,
    Guarded (statement_name R) (fun n t => rule_drop_line R (Some n) (Some t))
            lines (scan U R prev lines).
Proof.
  intros W. induction lines as [|l ls IH]; intros prev; cbn [scan].
  - constructor.
  - destruct (guard_for_nil_or_one U R prev l (firstn 5 (l :: ls)) W)
      as [->|(name & t & Hn & _ & _ & ->)]; cbn [app].
    + constructor. apply IH.
    + apply (Guarded_guard (statement_name R)
               (fun n t => rule_drop_line R (Some n) (Some t)) name t);
        [exact Hn|apply IH].
Qed.

Lemma Guarded_impl (st st' : str -> option str) (gd gd' : str -> str -> str)
    (xs ys : list str) :
  (forall l, st l = st' l) -> (forall n t, gd n t = gd' n t) ->
  Guarded st gd xs ys -> Guarded st' gd' xs ys.
Proof.
  intros Hs Hg. induction 1 as [|l xs ys _ IH|n t l xs ys Hn _ IH].
  - constructor.
  - constructor. exact IH.
  - rewrite Hg. apply Guarded_guard; [rewrite <- Hs; exact Hn|exact IH].
Qed.

(** X5.  In the output of the policy fixer and of the trigger fixer every
    inserted line stands right before a line of the input that the fixer
    takes for a statement, and it is the guard line of the name of that
    statement; the lines of the input are all there, in order and as they
    were.  So a guard is never put after the last line, nor before another
    guard, nor before a line that is no statement. *)
Theorem line_fixers_guard_statements U (content : str) :
  Guarded (policy_statement U) (fun p t => policy_drop_line (Some p) (Some t))
    (split nl content) (split nl (fix_create_policy U content)) /\
  Guarded (trigger_statement U) (fun n t => trigger_drop_line (Some n) (Some t))
    (split nl content) (split nl (fix_create_trigger U content)).
Proof.
  split.
  - rewrite fix_create_policy_scan, split_line_fixer by apply policy_rule_wf.
    apply Guarded_impl with (3 := scan_guarded U (POLICY_RULE U) _ (policy_rule_wf U) None).
    + intros l. reflexivity.
    + intros n t. symmetry. apply policy_drop_line_rule.
  - rewrite fix_create_trigger_scan, split_line_fixer by apply trigger_rule_wf.
    apply Guarded_impl with (3 := scan_guarded U (TRIGGER_RULE U) _ (trigger_rule_wf U) None).
    + intros l. reflexivity.
    + intros n t. symmetry. apply trigger_drop_line_rule.
Qed.

Lemma Guarded_length (st : str -> option str) (gd : str -> str -> str)
    (xs ys : list str) :
  Guarded st gd xs ys -> length xs <= length ys <= 2 * length xs.
Proof. induction 1; simpl; lia. Qed.

Lemma last_line_cons (l : str) (ls : list str) :
  ls <> [] -> last_line (l :: ls) = last_line ls.
Proof.
  intros N. unfold last_line. cbn [rev].
  destruct (rev ls) eqn:E; [|reflexivity].
  apply (f_equal (@rev _)) in E. rewrite rev_involutive in E. contradiction.
Qed.

Lemma Guarded_not_nil (st : str -> option str) (gd : str -> str -> str)
    (xs ys : list str) :
  Guarded st gd xs ys -> xs <> [] -> ys <> [].
Proof. destruct 1; intros N; congruence. Qed.

Lemma Guarded_last_line (st : str -> option str) (gd : str -> str -> str)
    (xs ys : list str) :
  Guarded st gd xs ys -> last_line ys = last_line xs.
Proof.
  induction 1 as [|l xs ys G IH|n t l xs ys Hn G IH]; [reflexivity| |].
  - destruct xs as [|x xs].
    + inversion G. reflexivity.
    + rewrite (last_line_cons l ys), (last_line_cons l (x :: xs));
        [exact IH|discriminate|].
      apply (Guarded_not_nil _ _ _ _ G). discriminate.
  - rewrite last_line_cons by discriminate.
    destruct xs as [|x xs].
    + inversion G. reflexivity.
    + rewrite (last_line_cons l ys), (last_line_cons l (x :: xs));
        [exact IH|discriminate|].
      apply (Guarded_not_nil _ _ _ _ G). discriminate.
Qed.

(** X6.  The policy fixer and the trigger fixer add at most one line for
    each line of the input and remove none: the output has between n and 2n
    lines when the input has n; and its last line is the last line of the
    input, so that the end of the file (a final newline or none) is kept. *)
Theorem line_fixers_line_count U (content : str) :
  let n := length (split nl content) in
  (n <= length (split nl (fix_create_policy U content)) <= 2 * n /\
   last_line (split nl (fix_create_policy U content)) = last_line (split nl content)) /\
  (n <= length (split nl (fix_create_trigger U content)) <= 2 * n /\
   last_line (split nl (fix_create_trigger U content)) = last_line (split nl content)).
Proof.
  intros n. unfold n.
  rewrite fix_create_policy_scan, fix_create_trigger_scan.
  rewrite !split_line_fixer by (apply policy_rule_wf || apply trigger_rule_wf).
  split; split.
  - apply (Guarded_length _ _ _ _ (scan_guarded U _ _ (policy_rule_wf U) None)).
  - apply (Guarded_last_line _ _ _ _ (scan_guarded U _ _ (policy_rule_wf U) None)).
  - apply (Guarded_length _ _ _ _ (scan_guarded U _ _ (trigger_rule_wf U) None)).
  - apply (Guarded_last_line _ _ _ _ (scan_guarded U _ _ (trigger_rule_wf U) None)).
Qed.

Lemma scan_no_statement U (R : guard_rule) (lines : list str) :
  rule_wf U R ->
  (forall l, In l lines -> statement_name R l = None) ->
  forall prev, scan U R prev lines = lines.
Proof.
  intros W. induction lines as [|l ls IH]; intros H prev; [reflexivity|].
  cbn [scan]. rewrite (guard_for_spec U R prev l _ W), (H l) by (left; reflexivity).
  cbn [app]. rewrite IH; [reflexivity|]. intros l' I. apply H. right. exact I.
Qed.

Lemma line_fixer_no_statement U (R : guard_rule) (content : str) :
  rule_wf U R ->
  (forall l, In l (split nl content) -> statement_name R l = None) ->
  line_fixer U R content = content.
Proof.
  intros W H. unfold line_fixer.
  rewrite (scan_no_statement U R _ W H). apply join_split.
Qed.

(** X7.  Content in which no line is a statement for the policy fixer is
    returned by it as it is, character for character; likewise for the
    trigger fixer. *)
Theorem line_fixers_unchanged_without_statement U (content : str) :
  ((forall l, In l (split nl content) -> policy_statement U l = None) ->
   fix_create_policy U content = content) /\
  ((forall l, In l (split nl content) -> trigger_statement U l = None) ->
   fix_create_trigger U content = content).
Proof.
  split; intros H.
  - apply (line_fixer_no_statement U _ _ (policy_rule_wf U)) in H.
    rewrite fix_create_policy_scan. exact H.
  - apply (line_fixer_no_statement U _ _ (trigger_rule_wf U)) in H.
    rewrite fix_create_trigger_scan. exact H.
Qed.

Lemma line_fixers_unchanged_without_statement_witness :
  fix_create_policy ascii_only trigger_example = trigger_example /\
  fix_create_trigger ascii_only read_own_example = read_own_example.
Proof.
  split.
  - apply (proj1 (line_fixers_unchanged_without_statement ascii_only trigger_example)).
    intros l I. vm_compute in I.
    destruct I as [<-|[<-|[]]]; vm_compute; reflexivity.
  - apply (proj2 (line_fixers_unchanged_without_statement ascii_only read_own_example)).
    intros l I. vm_compute in I.
    destruct I as [<-|[<-|[]]]; vm_compute; reflexivity.
Defined.

(* ===================================================================== *)
(** * SQL that is not in upper case *)
(* ===================================================================== *)

Lemma split_In (c : char) (s l : str) :
  In l (split nl s) -> In c l -> In c s.
Proof.
  revert l; induction s as [|x s IH]; intros l Hl Hc; simpl in Hl.
  - destruct Hl as [<-|[]]. destruct Hc.
  - destruct (split_cons nl s) as (l0 & ls & E). rewrite E in *.
    destruct (char_eqb x nl).
    + destruct Hl as [<-|Hl]; [destruct Hc|]. right. apply (IH l Hl Hc).
    + destruct Hl as [<-|Hl].
      * destruct Hc as [<-|Hc]; [left; reflexivity|].
        right. apply (IH l0); [left; reflexivity|exact Hc].
      * right. apply (IH l); [right; exact Hl|exact Hc].
Qed.

Lemma policy_statement_letter_C U (line p : str) :
  policy_statement U line = Some p -> In letter_C line.
Proof.
  intros H. apply policy_statement_shape in H.
  destruct H as (ws & ws' & after & -> & _).
  apply in_or_app. right. left. reflexivity.
Qed.

Lemma trigger_statement_letter_C U (line n : str) :
  trigger_statement U line = Some n -> In letter_C line.
Proof.
  unfold trigger_statement.
  destruct (re_match (TRIGGER_LINE U) line); [|discriminate].
  destruct (re_search (TRIGGER_NAME U) line) as [m|] eqn:E; [|discriminate].
  intros _. apply trigger_name_group in E.
  destruct E as (b & ws & name & a & _ & _ & _ & _ & _ & ->).
  apply in_or_app. right. left. reflexivity.
Qed.

(** X8.  The three fixers match the keywords in upper case only: content
    without the capital letter C (SQL written in lower case, for instance)
    is returned as it is by each of them, and [fix_migration_file] then
    reports no change and writes nothing. *)
Theorem no_capital_C_no_change U (content : str) :
  ~ In letter_C content ->
  fix_create_index U content = content /\
  fix_create_policy U content = content /\
  fix_create_trigger U content = content /\
  forall filepath w,
    files w filepath = Some content ->
    exists w', fix_migration_file U filepath w = Ok false w' /\
               files w' = files w /\
               writes (trace w') = writes (trace w).
Proof.
  intros N.
  assert (I : fix_create_index U content = content).
  { rewrite <- (app_nil_r content) at 1.
    rewrite fix_create_index_copy by exact N. apply app_nil_r. }
  assert (P : fix_create_policy U content = content).
  { rewrite fix_create_policy_scan.
    apply (line_fixer_no_statement U _ _ (policy_rule_wf U)).
    intros l Hl. change (policy_statement U l = None). destruct (policy_statement U l) as [p|] eqn:E; [|reflexivity].
    exfalso. apply N, (split_In letter_C content l Hl).
    apply (policy_statement_letter_C U l p E). }
  assert (T : fix_create_trigger U content = content).
  { rewrite fix_create_trigger_scan.
    apply (line_fixer_no_statement U _ _ (trigger_rule_wf U)).
    intros l Hl. change (trigger_statement U l = None). destruct (trigger_statement U l) as [n|] eqn:E; [|reflexivity].
    exfalso. apply N, (split_In letter_C content l Hl).
    apply (trigger_statement_letter_C U l n E). }
  repeat split; auto.
  intros filepath w F.
  exists (after_fix U filepath content w).
  rewrite (fix_migration_file_run U filepath content w F).
  unfold after_fix, fixed_content. rewrite I, P, T, str_eqb_refl. cbn [negb files trace].
  rewrite writes_unchanged. auto.
Qed.

Lemma no_capital_C_no_change_witness :
  fix_create_trigger ascii_only
    (fix_create_policy ascii_only
       (fix_create_index ascii_only lower_case_example)) = lower_case_example.
Proof.
  assert (N : ~ In letter_C lower_case_example).
  { intros I. vm_compute in I.
    repeat (destruct I as [I|I]; [discriminate I|]). exact I. }
  destruct (no_capital_C_no_change ascii_only lower_case_example N)
    as (I & P & T & _).
  rewrite I, P, T. reflexivity.
Defined.

(* ===================================================================== *)
(** * The index fixer, line by line *)
(* ===================================================================== *)

Lemma strip_prefix_app_sep (c : char) (q a b : str) :
  ~ In c q ->
  strip_prefix q (a ++ c :: b) =
  match strip_prefix q a with Some r => Some (r ++ c :: b) | None => None end.
Proof.
  revert a; induction q as [|x q IH]; intros a N; [reflexivity|].
  destruct a as [|y a]; cbn [app strip_prefix].
  - unfold char_eqb. destruct (N.eqb_spec x c) as [->|_]; [|reflexivity].
    exfalso. apply N. left. reflexivity.
  - destruct (char_eqb x y); [|reflexivity].
    apply IH. intros I. apply N. right. exact I.
Qed.

Lemma take_while_app_sep (cls : char -> bool) (c : char) (a b : str) :
  cls c = false -> take_while cls (a ++ c :: b) = take_while cls a.
Proof.
  intros H. induction a as [|x a IH]; cbn [app take_while].
  - rewrite H. reflexivity.
  - destruct (cls x); [rewrite IH|]; reflexivity.
Qed.

Lemma drop_while_app_sep (cls : char -> bool) (c : char) (a b : str) :
  cls c = false -> drop_while cls (a ++ c :: b) = drop_while cls a ++ c :: b.
Proof.
  intros H. induction a as [|x a IH]; cbn [app drop_while].
  - rewrite H. reflexivity.
  - destruct (cls x); [rewrite IH|]; reflexivity.
Qed.

Lemma is_word_nl U : is_word U nl = false.
Proof. reflexivity. Qed.

(** An occurrence does not reach over a newline. *)
Lemma index_here_line U (a b : str) :
  index_here U (a ++ nl :: b) =
  match index_here U a with
  | Some (id, r) => Some (id, r ++ nl :: b)
  | None => None
  end.
Proof.
  unfold index_here.
  rewrite strip_prefix_app_sep
    by (intros I; vm_compute in I;
        repeat (destruct I as [I|I]; [discriminate I|]); exact I).
  destruct (strip_prefix (lit "CREATE INDEX ") a) as [s1|]; [|reflexivity].
  unfold starts_with.
  rewrite strip_prefix_app_sep
    by (intros I; vm_compute in I;
        repeat (destruct I as [I|I]; [discriminate I|]); exact I).
  destruct (strip_prefix (lit "IF NOT EXISTS") s1); [reflexivity|].
  rewrite take_while_app_sep, drop_while_app_sep by apply is_word_nl.
  destruct (take_while (is_word U) s1); reflexivity.
Qed.

Lemma fix_create_index_newline U (n : nat) :
  forall a b,
    length a <= n ->
    fix_create_index U (a ++ nl :: b) =
    fix_create_index U a ++ nl :: fix_create_index U b.
Proof.
  induction n as [|n IH]; intros a b L.
  - destruct a; [|simpl in L; lia]. cbn [app].
    rewrite fix_create_index_skip; [reflexivity|].
    apply index_here_not_C. discriminate.
  - destruct a as [|c a].
    + cbn [app]. rewrite fix_create_index_skip; [reflexivity|].
      apply index_here_not_C. discriminate.
    + destruct (index_here U (c :: a)) as [[id r]|] eqn:E.
      * assert (E' := index_here_line U (c :: a) b). rewrite E in E'.
        rewrite (fix_create_index_here U _ _ _ E'),
                (fix_create_index_here U _ _ _ E).
        destruct (index_here_Some U _ _ _ E) as (Es & _).
        rewrite IH.
        -- rewrite <- !app_assoc. reflexivity.
        -- apply (f_equal (@length char)) in Es.
           rewrite !length_app, length_create_index in Es.
           simpl in L, Es. lia.
      * assert (E' := index_here_line U (c :: a) b). rewrite E in E'.
        cbn [app] in *.
        rewrite (fix_create_index_skip U _ _ E'), (fix_create_index_skip U _ _ E).
        rewrite IH by (simpl in L; lia). reflexivity.
Qed.

Lemma fix_create_index_join U (ls : list str) :
  fix_create_index U (join nl ls) = join nl (map (fix_create_index U) ls).
Proof.
  induction ls as [|l ls IH]; [reflexivity|].
  destruct ls as [|l' ls]; [reflexivity|].
  change (join nl (l :: l' :: ls)) with (l ++ nl :: join nl (l' :: ls)).
  rewrite (fix_create_index_newline U (length l)) by lia.
  rewrite IH. reflexivity.
Qed.

(** Every character of the output is one of the input or one of the
    inserted text. *)
Lemma fix_create_index_chars U (x : char) (n : nat) :
  forall s,
    length s <= n ->
    In x (fix_create_index U s) ->
    In x s \/ In x (lit "CREATE INDEX IF NOT EXISTS ").
Proof.
  induction n as [|n IH]; intros s L I.
  - destruct s; [|simpl in L; lia]. destruct I.
  - destruct s as [|c s]; [destruct I|].
    destruct (index_here U (c :: s)) as [[id r]|] eqn:E.
    + rewrite (fix_create_index_here U _ _ _ E) in I.
      destruct (index_here_Some U _ _ _ E) as (Es & _).
      apply in_app_or in I. destruct I as [I|I]; [right; exact I|].
      apply in_app_or in I. destruct I as [I|I].
      * left. rewrite Es. apply in_or_app. right. apply in_or_app. left. exact I.
      * destruct (IH r) as [J|J]; auto.
        -- apply (f_equal (@length char)) in Es.
           rewrite !length_app, length_create_index in Es. simpl in L, Es. lia.
        -- left. rewrite Es. apply in_or_app. right. apply in_or_app. right. exact J.
    + rewrite (fix_create_index_skip U _ _ E) in I.
      destruct I as [I|I]; [left; left; exact I|].
      destruct (IH s) as [J|J]; auto; [simpl in L; lia|].
      left. right. exact J.
Qed.

Lemma fix_create_index_one_line U (l : str) :
  one_line l -> one_line (fix_create_index U l).
Proof.
  intros H I.
  destruct (fix_create_index_chars U nl (length l) l (le_n _) I) as [J|J].
  - exact (H J).
  - vm_compute in J. repeat (destruct J as [J|J]; [discriminate J|]). exact J.
Qed.

(** X9.  The index fixer works line by line: the lines of its output are
    the lines of its input, each one rewritten on its own, so that no
    occurrence reaches over a newline and the number of lines stays the
    same. *)
Theorem fix_create_index_line_by_line U (content : str) :
  split nl (fix_create_index U content) =
  map (fix_create_index U) (split nl content) /\
  fix_create_index U content =
  join nl (map (fix_create_index U) (split nl content)).
Proof.
  assert (J : fix_create_index U content =
              join nl (map (fix_create_index U) (split nl content))).
  { rewrite <- fix_create_index_join, join_split. reflexivity. }
  split; [|exact J].
  rewrite J. apply split_join.
  - destruct (split_cons nl content) as (l & ls & ->). discriminate.
  - apply Forall_forall. intros y Iy. apply in_map_iff in Iy.
    destruct Iy as (l & <- & Il). apply fix_create_index_one_line.
    apply (proj1 (Forall_forall _ _) (split_one_line content)). exact Il.
Qed.

(** X10.  The pattern of the index fixer matches at a place exactly when
    the text there is CREATE INDEX and one space, then an identifier, a run
    of word characters that is not empty and is followed by no further word
    character, where what follows the space does not begin with
    IF NOT EXISTS; the match ends after the identifier, which is its group. *)
Theorem index_pattern_reading U (pos : nat) (s : str) (m : re_match_obj) :
  match_at (INDEX_PATTERN U) pos s = Some m <->
  exists id rest,
    s = lit "CREATE INDEX " ++ id ++ rest /\
    id <> [] /\ forallb (is_word U) id = true /\
    take_while (is_word U) rest = [] /\
    starts_with (lit "IF NOT EXISTS") (id ++ rest) = false /\
    m = MatchObj pos (pos + 13 + length id) (Some id).
Proof.
  rewrite match_at_index. split.
  - destruct (index_here U s) as [[id rest]|] eqn:E; [|discriminate].
    intros [= <-]. apply index_here_iff in E.
    destruct E as (-> & N & F & Z & B).
    exists id, rest. repeat split; auto.
  - intros (id & rest & E & N & F & Z & B & ->).
    assert (H : index_here U s = Some (id, rest))
      by (apply index_here_iff; auto).
    rewrite H, length_create_index. reflexivity.
Qed.

(* ===================================================================== *)
(** * Reading the patterns of the line fixers *)
(* ===================================================================== *)

Lemma exec_chars_inv {A : Type} (text : str) (pos : nat) (s : str) (g : option str)
    (k : nat -> str -> option str -> option A) (r : A) :
  exec (Chars text) pos s g k = Some r ->
  exists z, s = text ++ z /\ k (pos + length text) z g = Some r.
Proof.
  cbn [exec]. destruct (strip_prefix text s) as [z|] eqn:E; [|discriminate].
  apply strip_prefix_Some in E. subst s. eauto.
Qed.

Lemma exec_plus_inv {A : Type} (cls : char -> bool) (pos : nat) (s : str)
    (g : option str) (k : nat -> str -> option str -> option A) (r : A) :
  exec (Plus cls) pos s g k = Some r ->
  exists a z, s = a ++ z /\ a <> [] /\ forallb cls a = true /\
              k (pos + length a) z g = Some r.
Proof.
  cbn [exec]. destruct s as [|c s]; [discriminate|].
  destruct (cls c) eqn:Hc; [|discriminate].
  intros H. apply greedy_inv in H. destruct H as (pre & t & -> & F & K).
  exists (c :: pre), t. cbn [app forallb length]. rewrite Hc, F.
  replace (pos + S (length pre)) with (S pos + length pre) by lia.
  repeat split; auto. discriminate.
Qed.

(** A group that ends the pattern takes the longest run. *)
Lemma exec_last_group_inv (cls : char -> bool) (start pos : nat) (s : str)
    (g : option str) (m : re_match_obj) :
  exec (Group (Plus cls)) pos s g (fun e _ g' => Some (MatchObj start e g')) = Some m ->
  exists a z, s = a ++ z /\ a <> [] /\ forallb cls a = true /\
              take_while cls z = [] /\
              m = MatchObj start (pos + length a) (Some a).
Proof.
  cbn [exec]. destruct s as [|c s]; [discriminate|].
  destruct (cls c) eqn:Hc; [|discriminate].
  rewrite greedy_total by discriminate.
  replace (S pos + length (take_while cls s) - pos)
    with (S (length (take_while cls s))) by lia.
  cbn [firstn]. rewrite firstn_take_while. intros H. injection H as <-.
  exists (c :: take_while cls s), (drop_while cls s).
  cbn [app forallb length]. rewrite take_drop_while, Hc, take_while_all.
  repeat split; auto; [discriminate|apply take_drop_while_nil|].
  f_equal. lia.
Qed.

(** A keyword, white space and a group that ends the pattern. *)
Lemma keyword_group_at (text : str) (cls1 cls2 : char -> bool) (pos : nat)
    (t : str) (m : re_match_obj) :
  match_at (Chars text >> Plus cls1 >> Group (Plus cls2)) pos t = Some m ->
  exists ws n after,
    t = text ++ ws ++ n ++ after /\
    ws <> [] /\ forallb cls1 ws = true /\
    n <> [] /\ forallb cls2 n = true /\ take_while cls2 after = [] /\
    m_group1 m = Some n.
Proof.
  unfold match_at. rewrite exec_seq. intros H.
  apply exec_chars_inv in H. destruct H as (z & -> & H). cbv beta in H.
  rewrite exec_seq in H.
  apply exec_plus_inv in H. destruct H as (ws & z' & -> & Nw & Fw & H).
  cbv beta in H.
  apply exec_last_group_inv in H. destruct H as (n & after & -> & Nn & Fn & Z & ->).
  exists ws, n, after. cbn [m_group1]. auto 10.
Qed.

Lemma keyword_group_found (text : str) (cls1 cls2 : char -> bool) (pos : nat)
    (ws n after : str) :
  ws <> [] -> forallb cls1 ws = true -> take_while cls1 (n ++ after) = [] ->
  n <> [] -> forallb cls2 n = true -> take_while cls2 after = [] ->
  match_at (Chars text >> Plus cls1 >> Group (Plus cls2)) pos
           (text ++ ws ++ n ++ after) =
  Some (MatchObj pos (pos + length text + length ws + length n) (Some n)).
Proof.
  intros Nw Fw Zw Nn Fn Zn. unfold match_at.
  rewrite exec_seq, exec_chars_app. cbv beta. rewrite exec_seq.
  apply exec_plus_longest; [exact Nw|exact Fw|exact Zw|].
  apply exec_group_plus_longest; [exact Nn|exact Fn|exact Zn|reflexivity].
Qed.

Lemma search_from_found (r : regex) (skipped : str) :
  forall pos t,
    match_at r (pos + length skipped) t <> None ->
    search_from r pos (skipped ++ t) <> None.
Proof.
  induction skipped as [|c sk IH]; intros pos t H.
  - cbn [app length] in *. rewrite Nat.add_0_r in H.
    destruct t; cbn [search_from]; destruct (match_at r pos _); congruence.
  - cbn [app search_from].
    destruct (match_at r pos (c :: sk ++ t)); [discriminate|].
    apply IH. replace (S pos + length sk) with (pos + length (c :: sk))
      by (simpl; lia). exact H.
Qed.

Lemma trigger_name_not_at U (c : char) (s : str) (pos : nat) :
  c <> letter_C -> match_at (TRIGGER_NAME U) pos (c :: s) = None.
Proof.
  intros N. unfold match_at, TRIGGER_NAME.
  cbn [exec lit list_ascii_of_string map strip_prefix].
  unfold char_eqb. destruct (N.eqb_spec (N_of_ascii "C") c) as [E|_]; [|reflexivity].
  exfalso. apply N. rewrite <- E. reflexivity.
Qed.

Lemma take_while_space_create_trigger U (z : str) :
  take_while (is_space U) (lit "CREATE TRIGGER" ++ z) = [].
Proof. reflexivity. Qed.

Lemma take_while_space_word U (n after : str) :
  space_not_word U -> n <> [] -> forallb (is_word U) n = true ->
  take_while (is_space U) (n ++ after) = [].
Proof.
  intros D N F. destruct n as [|c n]; [congruence|].
  cbn [forallb] in F. apply andb_prop in F. destruct F as [Hc _].
  cbn [app take_while]. destruct (is_space U c) eqn:E; [|reflexivity].
  rewrite (D c E) in Hc. discriminate.
Qed.

Lemma trigger_statement_shape U (line n : str) :
  trigger_statement U line = Some n -> trigger_line_shape U line n.
Proof.
  unfold trigger_statement, re_match, match_at.
  destruct (exec (TRIGGER_LINE U) 0 line None _) as [m0|] eqn:M; [|discriminate].
  unfold TRIGGER_LINE in M. cbn [exec Nat.eqb] in M.
  apply greedy_inv in M. destruct M as (ws & t & -> & Fws & M).
  change (exec (TRIGGER_NAME U) (0 + length ws) t None
            (fun e _ g => Some (MatchObj 0 e g)) = Some m0) in M.
  rewrite exec_match_at in M.
  destruct (match_at (TRIGGER_NAME U) (0 + length ws) t) as [m|] eqn:Mt;
    [|discriminate].
  unfold re_search. rewrite search_from_skip.
  - rewrite (search_from_hit _ _ _ _ Mt).
    apply keyword_group_at in Mt.
    destruct Mt as (ws' & n' & after & -> & Nw & Fw & Nn & Fn & Z & G).
    rewrite G. intros [= <-]. exists ws, ws', after. auto 10.
  - intros c s p0 I. apply trigger_name_not_at, (is_space_not_C U).
    rewrite forallb_forall in Fws. apply Fws. exact I.
Qed.

Lemma trigger_statement_complete U (line n : str) :
  space_not_word U ->
  trigger_line_shape U line n -> trigger_statement U line = Some n.
Proof.
  intros D (ws & ws' & after & -> & Fws & Nw & Fw & Nn & Fn & Z).
  assert (Zw := take_while_space_word U n after D Nn Fn).
  assert (Mt := keyword_group_found (lit "CREATE TRIGGER") (is_space U) (is_word U)
                  (0 + length ws) ws' n after Nw Fw Zw Nn Fn Z).
  change (match_at (TRIGGER_NAME U) (0 + length ws)
            (lit "CREATE TRIGGER" ++ ws' ++ n ++ after) = Some
            (MatchObj (0 + length ws)
               (0 + length ws + length (lit "CREATE TRIGGER") + length ws' + length n)
               (Some n))) in Mt.
  unfold trigger_statement.
  assert (M : exists m, re_match (TRIGGER_LINE U)
                (ws ++ lit "CREATE TRIGGER" ++ ws' ++ n ++ after) = Some m).
  { eexists. unfold re_match, match_at, TRIGGER_LINE.
    rewrite exec_seq, exec_bol. cbv beta. rewrite exec_seq.
    apply exec_star_longest;
      [exact Fws|apply take_while_space_create_trigger|].
    refine (eq_trans (exec_match_at (TRIGGER_NAME U) 0 (0 + length ws) _) _).
    rewrite Mt. reflexivity. }
  destruct M as (m & ->).
  unfold re_search. rewrite search_from_skip.
  - rewrite (search_from_hit _ _ _ _ Mt). reflexivity.
  - intros c s p0 I. apply trigger_name_not_at, (is_space_not_C U).
    rewrite forallb_forall in Fws. apply Fws. exact I.
Qed.

Lemma ascii_only_space_not_word : space_not_word ascii_only.
Proof.
  intros c H. unfold is_space, is_word, is_alnum in *.
  cbn [ascii_only unicode_space unicode_alnum] in *.
  destruct (c <? 128)%N; [|discriminate].
  unfold ascii_space in H. unfold ascii_alnum, char_eqb.
  rewrite orb_true_iff, !andb_true_iff, !N.leb_le in H.
  repeat match goal with
         | |- context [(?a <=? ?b)%N] => destruct (N.leb_spec a b)
         end;
    destruct (N.eqb_spec c 95); simpl; try reflexivity; lia.
Qed.

(** X11.  Where no character is both white space and a word character, the
    lines that the trigger fixer takes for statements of name n are exactly
    those made of white space (or none), CREATE TRIGGER, white space and
    a run n of word characters that is not empty and that no word character
    follows: the statement begins the line, apart from indentation, its
    name is on the same line and is taken whole. *)
Theorem trigger_statement_iff U (line n : str) :
  space_not_word U ->
  (trigger_statement U line = Some n <-> trigger_line_shape U line n).
Proof.
  intros D. split; [apply trigger_statement_shape|apply trigger_statement_complete, D].
Qed.

Lemma trigger_statement_iff_witness :
  trigger_line_shape ascii_only (lit "  CREATE TRIGGER trg AFTER INSERT ON t") (lit "trg").
Proof.
  apply (trigger_statement_iff ascii_only _ _ ascii_only_space_not_word).
  vm_compute. reflexivity.
Defined.

(* ===================================================================== *)
(** * The table of a statement *)
(* ===================================================================== *)

Lemma lookahead_in_window U (lines : list str) (i : nat) (t : str) :
  lookahead U lines i = Some t ->
  exists j m,
    i <= j < Nat.min (i + 5) (length lines) /\
    re_search (ON_TABLE U) (nth j lines []) = Some m /\ m_group1 m = Some t.
Proof.
  unfold lookahead, py_range. intros H. apply first_table_Some in H.
  destruct H as (j & m & Hj & _ & S & G). exists j, m. repeat split; auto; lia.
Qed.

(** X12.  The table that the lookahead of the line fixers returns is read
    on one of the lines i to i + 4 (as far as there are lines): that line
    holds ON, white space and the table, which is a run of word characters
    and dots, not empty and taken whole.  So the table of a guard is never
    empty, and anything after the name, an opening bracket for instance,
    is left out. *)
Theorem lookahead_reading U (lines : list str) (i : nat) (t : str) :
  lookahead U lines i = Some t ->
  exists j,
    i <= j < Nat.min (i + 5) (length lines) /\
    on_clause U (nth j lines []) t.
Proof.
  intros H. apply lookahead_in_window in H.
  destruct H as (j & m & Hj & S & G). exists j. split; [exact Hj|].
  unfold re_search in S. apply search_from_sound in S.
  destruct S as (before & s' & E & M). apply keyword_group_at in M.
  destruct M as (ws & n & after & -> & Nw & Fw & Nn & Fn & Z & G').
  rewrite G' in G. injection G as ->.
  exists before, ws, after. auto 10.
Qed.

Lemma lookahead_reading_witness :
  exists j, 0 <= j < Nat.min (0 + 5) (length (split nl trigger_example)) /\
            on_clause ascii_only (nth j (split nl trigger_example) []) (lit "public.users").
Proof.
  apply (lookahead_reading ascii_only (split nl trigger_example) 0 (lit "public.users")).
  vm_compute. reflexivity.
Defined.

(** X13.  The lookahead does not look for an ON clause of the statement,
    only for the letters: a line of the window that holds ON, white space
    and then a word character or a dot that is no white space gives a
    table, wherever this is on the line, at the end of a longer word such
    as FUNCTION or inside a comment. *)
Theorem lookahead_takes_any_ON U (lines : list str) (i j : nat) :
  i <= j < Nat.min (i + 5) (length lines) ->
  has_on_text U (nth j lines []) ->
  lookahead U lines i <> None.
Proof.
  intros Hj (before & ws & c & after & E & Nw & Fw & Hc & Sc) H.
  unfold lookahead, py_range in H.
  rewrite first_table_None in H. specialize (H j ltac:(lia)).
  rewrite E in H. revert H. unfold re_search. apply search_from_found.
  pose proof (take_drop_while (is_word_or_dot U) after) as T.
  rewrite <- T.
  change (c :: take_while (is_word_or_dot U) after ++ drop_while (is_word_or_dot U) after)
    with ((c :: take_while (is_word_or_dot U) after) ++
          drop_while (is_word_or_dot U) after).
  unfold ON_TABLE. rewrite keyword_group_found; [discriminate|auto|auto| |discriminate| |].
  - cbn [app take_while]. rewrite Sc. reflexivity.
  - cbn [forallb]. rewrite Hc, take_while_all. reflexivity.
  - apply take_drop_while_nil.
Qed.

Lemma lookahead_takes_any_ON_witness :
  lookahead ascii_only (split nl function_example) 0 <> None.
Proof.
  apply (lookahead_takes_any_ON ascii_only (split nl function_example) 0 1).
  - vm_compute. split; repeat constructor.
  - exists (lit "EXECUTE FUNCTI"), (lit " "), 102%N, (lit "();").
    repeat split; try reflexivity. discriminate.
Defined.

(* ===================================================================== *)
(** * The files of a run *)
(* ===================================================================== *)

(** X14.  On a file that is not there, [fix_migration_file] prints its
    first line and then raises FileNotFoundError for that path; nothing is
    written and no file changes. *)
Theorem fix_migration_file_missing U (filepath : path) (w : world) :
  files w filepath = None ->
  exists w',
    fix_migration_file U filepath w = Raised (FileNotFoundError filepath) w' /\
    trace w' = trace w ++ [Printed (lit "Fixing " ++ name filepath ++ lit "...")] /\
    files w' = files w.
Proof.
  intros H. eexists. unfold fix_migration_file, bind, print, read_file, emit.
  cbn [files trace]. rewrite H. cbn [files trace]. auto.
Qed.

Lemma fix_migration_file_missing_witness :
  exists w',
    fix_migration_file ascii_only (Path migrations_dir (lit "a.sql")) empty_world =
      Raised (FileNotFoundError (Path migrations_dir (lit "a.sql"))) w' /\
    trace w' = trace empty_world ++ [Printed (lit "Fixing " ++ lit "a.sql" ++ lit "...")] /\
    files w' = files empty_world.
Proof.
  apply (fix_migration_file_missing ascii_only (Path migrations_dir (lit "a.sql"))
           empty_world).
  reflexivity.
Defined.




(* ===================================================================== *)
(** * When the index fixer changes its input *)
(* ===================================================================== *)

Lemma fix_create_index_length U (n : nat) :
  forall s, length s <= n -> length s <= length (fix_create_index U s).
Proof.
  induction n as [|n IH]; intros s L.
  - destruct s; [apply Nat.le_0_l|simpl in L; lia].
  - destruct s as [|c s]; [apply Nat.le_0_l|].
    destruct (index_here U (c :: s)) as [[id rest]|] eqn:E.
    + rewrite (fix_create_index_here U _ _ _ E).
      destruct (index_here_Some U _ _ _ E) as (Es & _).
      assert (Ls : length (c :: s) = 13 + length id + length rest).
      { rewrite Es, !length_app, length_create_index. lia. }
      assert (Lr : length rest <= length (fix_create_index U rest)).
      { apply IH. simpl in L, Ls. lia. }
      rewrite Ls, !length_app.
      change (length (lit "CREATE INDEX IF NOT EXISTS ")) with 27. lia.
    + rewrite (fix_create_index_skip U _ _ E). simpl.
      apply le_n_S, IH. simpl in L. lia.
Qed.

Lemma fix_create_index_here_longer U (s id rest : str) :
  index_here U s = Some (id, rest) ->
  length s < length (fix_create_index U s).
Proof.
  intros E. rewrite (fix_create_index_here U _ _ _ E).
  destruct (index_here_Some U _ _ _ E) as (Es & _).
  assert (Ls : length s = 13 + length id + length rest).
  { rewrite Es, !length_app, length_create_index. lia. }
  assert (Lr := fix_create_index_length U (length rest) rest (le_n _)).
  rewrite Ls, !length_app.
  change (length (lit "CREATE INDEX IF NOT EXISTS ")) with 27. lia.
Qed.

Lemma fix_create_index_longer U (k : nat) :
  forall s,
    index_here U (skipn k s) <> None ->
    length s < length (fix_create_index U s).
Proof.
  induction k as [|k IH]; intros s H.
  - cbn [skipn] in H. destruct (index_here U s) as [[id rest]|] eqn:E; [|congruence].
    apply (fix_create_index_here_longer U s id rest E).
  - destruct s as [|c s]; [exfalso; apply H; reflexivity|].
    cbn [skipn] in H. apply IH in H.
    destruct (index_here U (c :: s)) as [[id rest]|] eqn:E.
    + apply (fix_create_index_here_longer U _ id rest E).
    + rewrite (fix_create_index_skip U _ _ E). simpl. lia.
Qed.

(** X16.  The index fixer returns its input as it is exactly when its
    pattern is found nowhere in it: every run on content that holds an
    occurrence changes the content (it makes it longer), also when the
    occurrence is inside another one. *)
Theorem fix_create_index_changes_iff U (content : str) :
  fix_create_index U content = content <->
  re_search (INDEX_PATTERN U) content = None.
Proof.
  split.
  - intros E. destruct (re_search (INDEX_PATTERN U) content) as [m|] eqn:S;
      [|reflexivity].
    exfalso. unfold re_search in S. apply search_from_sound in S.
    destruct S as (sk & s' & Ec & M). rewrite match_at_index in M.
    assert (H : index_here U (skipn (length sk) content) <> None).
    { rewrite Ec, skipn_app, Nat.sub_diag, skipn_all. cbn [skipn app].
      destruct (index_here U s') as [[id rest]|]; [discriminate|discriminate M]. }
    apply fix_create_index_longer in H. rewrite E in H. lia.
  - intros S. apply fix_create_index_unchanged. intros k.
    destruct (index_here U (skipn k content)) as [[id rest]|] eqn:E; [|reflexivity].
    exfalso. revert S. unfold re_search.
    rewrite <- (firstn_skipn k content). apply search_from_found.
    rewrite match_at_index, E. discriminate.
Qed.
